(** * Weighted-mean graph convolution (notebook 2-dgl101/4_message_passing)

    A shallow embedding of [GraphConvWithEdgeWeight] and [u_mul_e_udf].

    The notebook is a thin client of two libraries, so the embedding has
    three layers:

    - [Torch]: 2-D tensors with their shape, and the tensor operations the
      notebook calls ([*] with broadcasting, [torch.cat(.., dim=1)],
      [F.relu], [nn.Linear]);
    - [DGL]: a homogeneous graph object with its node and edge frames
      ([g.ndata], [g.edata]), [local_scope], and [update_all] with the
      built-in [fn.u_mul_e] / [fn.mean] or a user-defined message function;
    - the notebook's own code: [GraphConvWithEdgeWeight.__init__],
      [GraphConvWithEdgeWeight.forward] and [u_mul_e_udf].

    Conventions of the model:

    - tensor entries are exact rationals ([Qc]); rounding of floating-point
      arithmetic is not modelled in [Torch] and [DGL]. The aggregation is
      given a second time over any arithmetic of the entries ([Arith],
      [g_neighbor_repr]), with the exact rationals and IEEE binary64
      ([torch.float64]) as instances, for the properties that depend on
      rounding;
    - tensors are 2-D (rows x columns), a per-edge scalar weight is a
      column tensor of shape (E, 1); edge weights of rank 1 (shape (E,))
      are treated separately ([RTensor]);
    - all tensors of a call have one floating dtype, so the dtype checks
      of the libraries cannot fail and are not modelled;
    - a Python exception is a value of [Exn]; a call that raises returns
      [inl e] and the graph object after an uncaught exception is not
      modelled;
    - the notebook uses the name [fn] for the package [dgl.function] (its
      text says so) although its import cell does not bind it; [fn] is
      modelled as that package.

    Module [Gnn] embeds the cells of the notebook 2-dgl101/2_gnn that
    split the nodes into labelled and test nodes and print the accuracy. *)

From stdpp Require Import base numbers list strings gmap sorting.
From Stdlib Require Import QArith Qcanon.
From Stdlib Require Import Floats.PrimFloat Numbers.Cyclic.Int63.Uint63.

Local Open Scope Qc_scope.

(** ** Exceptions and the two monads *)

(** The exceptions the libraries raise on the paths [forward] takes. *)
Inductive Exn : Type :=
  | DGLError_node_rows      (* g.ndata[k] = t with len(t) != g.num_nodes() *)
  | DGLError_edge_rows      (* g.edata[k] = t with len(t) != g.num_edges() *)
  | DGLError_fields         (* message output field != reduce message field *)
  | DGLError_broadcast      (* built-in binary message: feature shapes do not broadcast *)
  | RuntimeError_broadcast  (* torch: sizes differ at a non-singleton dimension *)
  | RuntimeError_cat        (* torch.cat: sizes differ outside the cat dimension *)
  | RuntimeError_matmul     (* F.linear: mat1 and mat2 shapes cannot be multiplied *)
  | KeyError (k : string)   (* missing field of a frame or dict *)
  | IndexError.             (* row index out of range *)

#[global] Instance Exn_eq_dec : EqDecision Exn.
Proof. solve_decision. Defined.

(** A pure library call: a value or an exception. *)
Abbreviation res := (sum Exn).
Abbreviation Ok := inr (only parsing).
Abbreviation Err := inl (only parsing).

#[global] Instance res_ret : MRet res := λ A a, inr a.
#[global] Instance res_bind : MBind res := λ A B f m,
  match m with inl e => inl e | inr a => f a end.
#[global] Instance res_fmap : FMap res := λ A B f m,
  match m with inl e => inl e | inr a => inr (f a) end.

Definition from_option {A} (e : Exn) (o : option A) : res A :=
  match o with Some a => inr a | None => inl e end.

(** ** Tensors *)

Module Torch.

(** A 2-D tensor: [shape = (length rows, ncols)]. *)
Record Tensor : Type := mkTensor { ncols : nat; rows : list (list Qc) }.

Definition nrows (t : Tensor) : nat := length (rows t).

(** Every row has the declared width. *)
Definition tensor_ok (t : Tensor) : bool :=
  forallb (λ r, length r =? ncols t)%nat (rows t).

#[global] Instance Tensor_eq_dec : EqDecision Tensor.
Proof. solve_decision. Defined.

(** Broadcasting of one dimension: equal sizes, or one of them is 1. *)
Definition broadcast_dim (a b : nat) : option nat :=
  if decide (a = b) then Some a
  else if decide (a = 1%nat) then Some b
  else if decide (b = 1%nat) then Some a
  else None.

(** [expand n l]: a singleton dimension is repeated [n] times, any other
    is left as it is. *)
Definition expand {A} (n : nat) (l : list A) : list A :=
  match l with [a] => replicate n a | _ => l end.

Definition vadd (x y : list Qc) : list Qc := zip_with Qcplus x y.

(** Elementwise product of two rows broadcast to width [n]. *)
Definition vmul (n : nat) (x y : list Qc) : list Qc :=
  zip_with Qcmult (expand n x) (expand n y).

(** [a * b] on 2-D tensors. *)
Definition mul (a b : Tensor) : res Tensor :=
  match broadcast_dim (nrows a) (nrows b), broadcast_dim (ncols a) (ncols b) with
  | Some r, Some c =>
      Ok (mkTensor c (zip_with (vmul c) (expand r (rows a)) (expand r (rows b))))
  | _, _ => Err RuntimeError_broadcast
  end.

(** [torch.cat([a, b], dim=1)]. *)
Definition cat1 (a b : Tensor) : res Tensor :=
  if decide (nrows a = nrows b)
  then Ok (mkTensor (ncols a + ncols b) (zip_with app (rows a) (rows b)))
  else Err RuntimeError_cat.

(** [F.relu]: elementwise [max(x, 0)]. *)
Definition relu1 (x : Qc) : Qc := if Qclt_le_dec 0 x then x else 0.
Definition vrelu (x : list Qc) : list Qc := map relu1 x.
Definition relu (t : Tensor) : Tensor := mkTensor (ncols t) (map vrelu (rows t)).

(** [t[idx]]: rows selected by a list of indices. *)
Definition index_select (t : Tensor) (idx : list nat) : res Tensor :=
  rs ← from_option IndexError (mapM (λ i, rows t !! i) idx);
  Ok (mkTensor (ncols t) rs).

Definition dot (x y : list Qc) : Qc := foldr Qcplus 0 (zip_with Qcmult x y).

(** [nn.Linear(in_features, out_features)] with its default [bias=True]:
    [weight] has [out_features] rows of [in_features] entries. *)
Record Linear : Type := mkLinear {
  in_features : nat;
  out_features : nat;
  weight : list (list Qc);
  bias : list Qc
}.

(** One output row of a linear layer: [y_j = <x, weight_j> + bias_j]. *)
Definition affine (W : list (list Qc)) (b : list Qc) (x : list Qc) : list Qc :=
  zip_with (λ wj bj, dot x wj + bj) W b.

(** Calling the layer on [x]: [F.linear(x, weight, bias)]. *)
Definition Linear_call (L : Linear) (x : Tensor) : res Tensor :=
  if decide (ncols x = in_features L)
  then Ok (mkTensor (out_features L) (map (affine (weight L) (bias L)) (rows x)))
  else Err RuntimeError_matmul.

End Torch.
Import Torch.

(** ** The graph object and message passing *)

Module DGL.

(** A homogeneous [DGLGraph]: nodes are [0 .. num_nodes-1], the edge with
    id [i] is the [i]-th pair [(src, dst)] of [edges]; [ndata] and [edata]
    are the node and edge frames (field name to tensor). *)
Record DGLGraph : Type := mkGraph {
  num_nodes : nat;
  edges : list (nat * nat);
  ndata : gmap string Tensor;
  edata : gmap string Tensor
}.

Definition num_edges (g : DGLGraph) : nat := length (edges g).

(** Every edge's endpoints are nodes of the graph (the graph constructor
    enforces it). *)
Definition graph_ok (g : DGLGraph) : bool :=
  forallb (λ e, (e.1 <? num_nodes g)%nat && (e.2 <? num_nodes g)%nat) (edges g).

Definition in_degree (g : DGLGraph) (v : nat) : nat :=
  length (filter (λ e, e.2 = v) (edges g)).

Definition in_degrees (g : DGLGraph) : list nat :=
  map (in_degree g) (seq 0 (num_nodes g)).

(** Code that reads and writes the graph object and may raise. *)
Definition M (A : Type) : Type := DGLGraph → res (A * DGLGraph).

#[global] Instance M_ret : MRet M := λ A a g, Ok (a, g).
#[global] Instance M_bind : MBind M := λ A B f m g,
  match m g with inl e => inl e | inr (a, g') => f a g' end.

Definition lift {A} (r : res A) : M A := λ g,
  match r with inl e => inl e | inr a => Ok (a, g) end.

(** [g.ndata[k] = t] *)
Definition set_n_repr (k : string) (t : Tensor) : M unit := λ g,
  if decide (nrows t = num_nodes g)
  then Ok ((), mkGraph (num_nodes g) (edges g) (<[k:=t]> (ndata g)) (edata g))
  else Err DGLError_node_rows.

(** [g.edata[k] = t] *)
Definition set_e_repr (k : string) (t : Tensor) : M unit := λ g,
  if decide (nrows t = num_edges g)
  then Ok ((), mkGraph (num_nodes g) (edges g) (ndata g) (<[k:=t]> (edata g)))
  else Err DGLError_edge_rows.

(** [g.ndata[k]] *)
Definition get_n_repr (k : string) : M Tensor := λ g,
  match ndata g !! k with Some t => Ok (t, g) | None => Err (KeyError k) end.

(** [with g.local_scope(): body]: the body runs on copies of the frames;
    when it returns, the frames the graph had on entry are put back. *)
Definition local_scope {A} (body : M A) : M A := λ g,
  match body g with
  | inl e => inl e
  | inr (a, g') => Ok (a, mkGraph (num_nodes g') (edges g') (ndata g) (edata g))
  end.

(** The sparse kernel behind the built-in reducers: starting from [acc],
    every edge [eid : u -> v], in edge-id order, adds its message to row
    [v]. [msg eid u] is the message of edge [eid] with source [u]. *)
Fixpoint scatter_add (msg : nat → nat → res (list Qc)) (es : list (nat * nat))
    (eid : nat) (acc : list (list Qc)) : res (list (list Qc)) :=
  match es with
  | [] => Ok acc
  | (u, v) :: es' =>
      m ← msg eid u;
      r ← from_option IndexError (acc !! v);
      scatter_add msg es' (S eid) (<[v := vadd r m]> acc)
  end.

Definition Qc_of_nat (n : nat) : Qc := Qc_of_Z (Z.of_nat n).

(** The mean reducer divides the summed rows by the in-degrees, clamped
    from below at 1: [z / clamp(g.in_degrees(), min=1)]. *)
Definition div_degrees (z : list (list Qc)) (degs : list nat) : list (list Qc) :=
  zip_with (λ r d, map (λ a, a / Qc_of_nat (d `max` 1)) r) z degs.

Definition zeros (n c : nat) : list (list Qc) := replicate n (replicate c 0).

(** [ops.u_mul_e_mean(g, x, y)]: the fused kernel for
    [update_all(fn.u_mul_e, fn.mean)]; [x] is a node field, [y] an edge
    field, feature shapes broadcast. *)
Definition u_mul_e_mean (g : DGLGraph) (x y : Tensor) : res Tensor :=
  c ← from_option DGLError_broadcast (broadcast_dim (ncols x) (ncols y));
  z ← scatter_add
         (λ eid u, xu ← from_option IndexError (rows x !! u);
                   ye ← from_option IndexError (rows y !! eid);
                   Ok (vmul c xu ye))
         (edges g) 0 (zeros (num_nodes g) c);
  Ok (mkTensor c (div_degrees z (in_degrees g))).

(** [ops.copy_e_mean(g, m)]: mean of already computed per-edge messages. *)
Definition copy_e_mean (g : DGLGraph) (m : Tensor) : res Tensor :=
  z ← scatter_add (λ eid _, from_option IndexError (rows m !! eid))
         (edges g) 0 (zeros (num_nodes g) (ncols m));
  Ok (mkTensor (ncols m) (div_degrees z (in_degrees g))).

(** The [edges] argument of a user-defined message function: fields of the
    source node, of the edge and of the destination node, for all edges. *)
Record EdgeBatch : Type := mkEdgeBatch {
  src : string → res Tensor;
  data : string → res Tensor;
  dst : string → res Tensor
}.

Definition edge_batch (g : DGLGraph) : EdgeBatch :=
  {| src := λ k, t ← from_option (KeyError k) (ndata g !! k);
                 index_select t (map fst (edges g));
     data := λ k, from_option (KeyError k) (edata g !! k);
     dst := λ k, t ← from_option (KeyError k) (ndata g !! k);
                 index_select t (map snd (edges g)) |}.

(** Message and reduce functions: the built-ins of [dgl.function] the
    notebook uses, and user-defined message functions. *)
Inductive MessageFunction : Type :=
  | u_mul_e (lhs rhs out : string)
  | UDF (f : EdgeBatch → res (gmap string Tensor)).

Inductive ReduceFunction : Type :=
  | mean (msg out : string).

(** [core.message_passing]: two built-ins run the fused kernel; a
    user-defined message function is evaluated on the edge batch and its
    messages are reduced by [copy_e]. Returns the new node field. *)
Definition message_passing (g : DGLGraph) (mfunc : MessageFunction)
    (rfunc : ReduceFunction) : res (string * Tensor) :=
  match mfunc, rfunc with
  | u_mul_e lhs rhs out, mean msg o =>
      if decide (out = msg) then
        x ← from_option (KeyError lhs) (ndata g !! lhs);
        y ← from_option (KeyError rhs) (edata g !! rhs);
        z ← u_mul_e_mean g x y;
        Ok (o, z)
      else Err DGLError_fields
  | UDF f, mean msg o =>
      msgdata ← f (edge_batch g);
      m ← from_option (KeyError msg) (msgdata !! msg);
      z ← copy_e_mean g m;
      Ok (o, z)
  end.

(** [g.update_all(mfunc, rfunc)] *)
Definition update_all (mfunc : MessageFunction) (rfunc : ReduceFunction) : M unit :=
  λ g, match message_passing g mfunc rfunc with
       | inl e => inl e
       | inr (o, z) => set_n_repr o z g
       end.

End DGL.
Import DGL.

(** [fn] is [dgl.function]. *)
Module fn.
Definition u_mul_e := DGL.u_mul_e.
Definition mean := DGL.mean.
End fn.

(** ** The notebook *)

(** [class GraphConvWithEdgeWeight(nn.Module)]: its only state is the
    linear submodule. *)
Record GraphConvWithEdgeWeight : Type := mkConv { linear : Linear }.

(** [__init__(self, in_feat, out_feat)]: the entries of the freshly
    created layer ([W], [b]) are whatever initialisation or training made
    them. *)
Definition __init__ (in_feat out_feat : nat) (W : list (list Qc)) (b : list Qc)
    : GraphConvWithEdgeWeight :=
  mkConv (mkLinear (in_feat * 2) out_feat W b).

(** The first four statements of the [with] block of [forward], ending
    with [h_neigh = g.ndata['h_neigh']]. *)
Definition aggregate (mfunc : MessageFunction) (h w : Tensor) : M Tensor :=
  set_n_repr "h" h ;;
  set_e_repr "w" w ;;
  (* update_all is a message passing API. *)
  update_all mfunc (fn.mean "m" "h_neigh") ;;
  get_n_repr "h_neigh".

(** [forward(self, g, h, w)] with the message function as a parameter. *)
Definition forward_with (mfunc : MessageFunction) (self : GraphConvWithEdgeWeight)
    (h w : Tensor) : M Tensor :=
  local_scope (
    h_neigh ← aggregate mfunc h w;
    h_total ← lift (cat1 h h_neigh);
    y ← lift (Linear_call (linear self) h_total);
    mret (relu y)).

(** [GraphConvWithEdgeWeight.forward] *)
Definition forward (self : GraphConvWithEdgeWeight) (h w : Tensor) : M Tensor :=
  forward_with (fn.u_mul_e "h" "w" "m") self h w.

(** [u_mul_e_udf(edges)] *)
Definition u_mul_e_udf (edges : EdgeBatch) : res (gmap string Tensor) :=
  hs ← src edges "h";
  we ← data edges "w";
  m ← mul hs we;
  Ok {[ "m" := m ]}.

(** The value of [h_neigh] inside [forward]: [neighbor_repr] of the spec. *)
Definition neighbor_repr (g : DGLGraph) (h w : Tensor) : res Tensor :=
  fst <$> aggregate (fn.u_mul_e "h" "w" "m") h w g.

(** What [forward] returns, without the graph object. *)
Definition output (self : GraphConvWithEdgeWeight) (g : DGLGraph) (h w : Tensor)
    : res Tensor :=
  fst <$> forward self h w g.

(** ** Notions of the specification *)

(** The incoming edges of node [v], in edge-id order, each given by its
    source node and its row of the weight tensor ([es] are the edges,
    [ws] the rows of the edge weights, paired by edge id). *)
Definition incoming (es : list (nat * nat)) (ws : list (list Qc)) (v : nat)
    : list (nat * list Qc) :=
  omap (λ p, if decide (p.1.2 = v) then Some (p.1.1, p.2) else None) (zip es ws).

(** A vector scaled elementwise by a scalar. *)
Definition scale (c : Qc) (x : list Qc) : list Qc := map (λ a, a * c) x.

(** The message of an edge [u -> v] with scalar weight [c]:
    [node_features[u] * c]. *)
Definition message (h : Tensor) (p : nat * list Qc) : option (list Qc) :=
  hu ← rows h !! p.1;
  match p.2 with [c] => Some (scale c hu) | _ => None end.

(** Elementwise sum and arithmetic mean of vectors of width [n]. *)
Definition vsum (n : nat) (ms : list (list Qc)) : list Qc :=
  foldr vadd (replicate n 0) ms.

Definition vmean (n : nat) (ms : list (list Qc)) : list Qc :=
  map (λ s, s / Qc_of_nat (length ms)) (vsum n ms).

(** [W . x] for a matrix [W]: the linear map without a bias term. *)
Definition matvec (W : list (list Qc)) (x : list Qc) : list Qc := map (dot x) W.

(** Forgetting which exception was raised. *)
Definition returned {A} (r : res A) : option A :=
  match r with inl _ => None | inr a => Some a end.

(** The messages the kernel adds to row [v]: those of the edges into [v],
    in edge-id order, when edge [eid] with source [u] sends [f eid u]. *)
Fixpoint messages_into (f : nat → nat → list Qc) (es : list (nat * nat))
    (eid v : nat) : list (list Qc) :=
  match es with
  | [] => []
  | (u, v') :: es' =>
      if decide (v' = v) then f eid u :: messages_into f es' (S eid) v
      else messages_into f es' (S eid) v
  end.

(** The product the fused kernel forms for an edge given by its source
    node and weight row, at broadcast width [c]. *)
Definition edge_product (c : nat) (x : Tensor) (p : nat * list Qc) : list Qc :=
  vmul c (default [] (rows x !! p.1)) p.2.

(** Row [v] of the result of the fused kernel, in closed form. *)
Definition mean_row (c : nat) (x : Tensor) (es : list (nat * nat))
    (ws : list (list Qc)) (v : nat) : list Qc :=
  map (λ a, a / Qc_of_nat (length (filter (λ e, e.2 = v) es) `max` 1))
      (foldl vadd (replicate c 0) (map (edge_product c x) (incoming es ws v))).

(** The graph object inside the scope once [h_neigh] has been written. *)
Definition scoped (g : DGLGraph) (h w z : Tensor) : DGLGraph :=
  mkGraph (num_nodes g) (edges g)
    (<["h_neigh" := z]> (<["h" := h]> (ndata g))) (<["w" := w]> (edata g)).

(** The contract's preconditions on the inputs of [forward]: every edge's
    endpoints are nodes of the graph, [h] has one row per node, [w] has one
    scalar per edge. *)
Definition contract (g : DGLGraph) (h w : Tensor) : bool :=
  graph_ok g && (nrows h =? num_nodes g)%nat && tensor_ok h
  && (nrows w =? num_edges g)%nat && (ncols w =? 1)%nat && tensor_ok w.

(** ** A worked example

    Three nodes, edges 0 -> 2 and 1 -> 2 with weight 1/2 each, node
    features [[1,0],[0,1],[0,0]]. *)
Definition q (a : Z) (b : positive) : Qc := Q2Qc (a # b).

Definition ex_g : DGLGraph := mkGraph 3 [(0, 2); (1, 2)]%nat ∅ ∅.
Definition ex_h : Tensor :=
  mkTensor 2 [[q 1 1; q 0 1]; [q 0 1; q 1 1]; [q 0 1; q 0 1]].
Definition ex_w : Tensor := mkTensor 1 [[q 1 2]; [q 1 2]].

(** The two edges of the example with weights 1/2 and 1/4, listed in
    both orders; and the weights [ex_w] multiplied by 3. *)
Definition ex_ew : list ((nat * nat) * list Qc) :=
  [((0, 2)%nat, [q 1 2]); ((1, 2)%nat, [q 1 4])].
Definition ex_ew' : list ((nat * nat) * list Qc) :=
  [((1, 2)%nat, [q 1 4]); ((0, 2)%nat, [q 1 2])].
Definition ex_w3 : Tensor := mkTensor 1 [[q 3 2]; [q 3 2]].

(** A layer for input width 2 and output width 1 with weights
    [[1, 1, 1, -1]] and bias [1]; all-zero node features. *)
Definition ex_conv : GraphConvWithEdgeWeight :=
  __init__ 2 1 [[q 1 1; q 1 1; q 1 1; q (-1) 1]] [q 1 1].
Definition ex_hz : Tensor :=
  mkTensor 2 [[q 0 1; q 0 1]; [q 0 1; q 0 1]; [q 0 1; q 0 1]].

(** Node features of width 3, and weights for one edge only. *)
Definition ex_h3 : Tensor :=
  mkTensor 3 [[q 1 1; q 0 1; q 2 1]; [q 0 1; q 1 1; q 2 1]; [q 0 1; q 0 1; q 2 1]].
Definition ex_w_short : Tensor := mkTensor 1 [[q 1 2]].

(** The example graph carrying fields of its own, among them one named
    like a temporary of [forward]. *)
Definition ex_g_fields : DGLGraph :=
  mkGraph 3 [(0, 2); (1, 2)]%nat
    {[ "h" := ex_hz; "club" := ex_h3 ]} {[ "w" := ex_w3 ]}.

(** ** Further notions *)

(** The parameters of a layer have the shapes [nn.Linear] gives them:
    [weight] is [out_features] x [in_features], [bias] has [out_features]
    entries. *)
Definition Linear_ok (L : Linear) : bool :=
  (length (weight L) =? out_features L)%nat
  && (length (bias L) =? out_features L)%nat
  && forallb (λ r, length r =? in_features L)%nat (weight L).

(** The message of an edge whose weight row is as wide as the features:
    the elementwise product of the source's row and the weight row. *)
Definition product_message (h : Tensor) (p : nat * list Qc) : option (list Qc) :=
  hu ← rows h !! p.1;
  Some (zip_with Qcmult hu p.2).

(** Features for two nodes only, and weight rows of width 2. *)
Definition ex_h_short : Tensor := mkTensor 2 [[q 1 1; q 0 1]; [q 0 1; q 1 1]].
Definition ex_w2 : Tensor := mkTensor 2 [[q 1 2; q 1 3]; [q 1 2; q 1 3]].

(** Features that differ from [ex_h] on the rows of nodes 1 and 2. *)
Definition ex_h' : Tensor :=
  mkTensor 2 [[q 1 1; q 0 1]; [q 5 1; q 5 1]; [q 7 1; q 7 1]].

(** The example graph inside the scope of [forward]: [h] and [w] are
    attached. *)
Definition ex_g_scoped : DGLGraph :=
  mkGraph 3 [(0, 2); (1, 2)]%nat {[ "h" := ex_h ]} {[ "w" := ex_w ]}.

(** Weight 1 on both edges of the example. *)
Definition ex_w1 : Tensor := mkTensor 1 [[1]; [1]].

(** ** The node-classification notebook (2-dgl101/2_gnn)

    The cells that choose the labelled nodes and print the accuracy, in
    both copies of the notebook (CPU and GPU). The sample drawn by
    [random.sample] is an argument; the quotient printed as accuracy is an
    exact rational. *)

Module Gnn.

(** The exceptions of numpy, torch and Python on these lines. *)
Inductive PyExn : Type :=
  | Py_IndexError         (* index out of bounds *)
  | Py_RuntimeError       (* torch: sizes of the operands of == do not match *)
  | Py_ZeroDivisionError. (* division by zero *)

#[global] Instance PyExn_eq_dec : EqDecision PyExn.
Proof. solve_decision. Defined.

Abbreviation pres := (sum PyExn).

#[global] Instance pres_bind : MBind pres := λ A B f m,
  match m with inl e => inl e | inr a => f a end.

(** What [random.sample(range(n), k)] can return: [k] distinct elements
    of [range(n)]. *)
Definition is_sample (n k : nat) (s : list nat) : Prop :=
  length s = k ∧ NoDup s ∧ Forall (λ i, (i < n)%nat) s.

(** [np.unique(l)]: the sorted distinct elements of [l]. *)
Definition np_unique (l : list nat) : list nat :=
  merge_sort Nat.le (remove_dups l).

(** [np.arange(n)] *)
Definition np_arange (n : nat) : list nat := seq 0 n.

(** [np.delete(arr, obj)] for an array of indices [obj]: a mask keeps the
    positions that are not listed in [obj]; an index outside the array
    raises. *)
Definition np_delete {A} (arr : list A) (obj : list nat) : pres (list A) :=
  if forallb (λ i, i <? length arr)%nat obj
  then Ok (omap (λ p, if decide (p.1 ∈ obj) then None else Some p.2)
                (zip (seq 0 (length arr)) arr))
  else Err Py_IndexError.

(** [train_nodes = np.unique([0, 33] + random.sample(range(len(labels)), 3))]
    ([labeled_nodes] in the GPU copy), for the sample [s]. *)
Definition train_nodes (s : list nat) : list nat := np_unique ([0; 33]%nat ++ s).

(** [test_nodes = np.delete(np.arange(len(labels)), train_nodes)] *)
Definition test_nodes (n : nat) (train : list nat) : pres (list nat) :=
  np_delete (np_arange n) train.

(** [pred == labels] on 1-D integer tensors, with broadcasting. *)
Definition tensor_eq (a b : list nat) : pres (list bool) :=
  match broadcast_dim (length a) (length b) with
  | Some n => Ok (zip_with Nat.eqb (expand n a) (expand n b))
  | None => Err Py_RuntimeError
  end.

(** [t[idx]] for an array of indices. *)
Definition take_indices {A} (t : list A) (idx : list nat) : pres (list A) :=
  match mapM (λ i, t !! i) idx with
  | Some r => Ok r
  | None => Err Py_IndexError
  end.

(** [t.sum().item()] on a boolean tensor: the number of [True] entries. *)
Definition count_true (t : list bool) : nat := length (filter (λ b, b = true) t).

(** [a / b] on Python integers. *)
Definition true_div (a b : nat) : pres Qc :=
  if decide (b = 0%nat) then Err Py_ZeroDivisionError
  else Ok (Qc_of_nat a / Qc_of_nat b).

(** The accuracy printed by the CPU copy:
    [(pred == labels)[test_nodes].sum().item() / len(pred)]. *)
Definition accuracy_cpu (pred labels test : list nat) : pres Qc :=
  m ← tensor_eq pred labels;
  hits ← take_indices m test;
  true_div (count_true hits) (length pred).

(** The accuracy printed by the GPU copy:
    [(pred == labels)[test_nodes].sum().item() / len(test_nodes)]. *)
Definition accuracy_gpu (pred labels test : list nat) : pres Qc :=
  m ← tensor_eq pred labels;
  hits ← take_indices m test;
  true_div (count_true hits) (length test).

End Gnn.

(** Whether the prediction is right, for each of the listed nodes: the
    entries [(pred == labels)[test]] when nothing raises. *)
Definition hits (pred labels test : list nat) : list bool :=
  map (λ i, default false (zip_with Nat.eqb pred labels !! i)) test.

(** ** The aggregation over any arithmetic of the entries

    The kernel of [update_all(fn.u_mul_e, fn.mean)] once more, with the
    zero, the sum, the product, the quotient and the conversion of an
    in-degree taken from an arithmetic [A]: nothing is assumed about
    these operations. *)

Record Arith : Type := mkArith {
  scalar : Type;
  a_zero : scalar;
  a_add : scalar → scalar → scalar;
  a_mul : scalar → scalar → scalar;
  a_div : scalar → scalar → scalar;
  a_of_nat : nat → scalar
}.

(** The exact rationals of [Torch.Tensor]. *)
Definition exact : Arith := mkArith Qc 0 Qcplus Qcmult Qcdiv Qc_of_nat.

(** IEEE binary64 with round-to-nearest-even, the arithmetic of a
    [torch.float64] tensor. *)
Definition binary64 : Arith :=
  mkArith float 0%float PrimFloat.add PrimFloat.mul PrimFloat.div
          (λ n, PrimFloat.of_uint63 (Uint63.of_Z (Z.of_nat n))).

(** A 2-D tensor with entries in [A]. *)
Record GTensor (A : Arith) : Type := mkG {
  gcols : nat;
  grows : list (list (scalar A))
}.
Arguments mkG {A} _ _.
Arguments gcols {A} _.
Arguments grows {A} _.

(** A tensor of [Torch] as a tensor over the exact rationals. *)
Definition to_exact (t : Tensor) : GTensor exact := @mkG exact (ncols t) (rows t).

Section Kernel.
Context (A : Arith).

Definition g_vadd (x y : list (scalar A)) : list (scalar A) :=
  zip_with (a_add A) x y.

Definition g_vmul (n : nat) (x y : list (scalar A)) : list (scalar A) :=
  zip_with (a_mul A) (expand n x) (expand n y).

(** [DGL.scatter_add] over [A]: edge by edge, in edge-id order. *)
Fixpoint g_scatter_add (msg : nat → nat → res (list (scalar A)))
    (es : list (nat * nat)) (eid : nat) (acc : list (list (scalar A)))
    : res (list (list (scalar A))) :=
  match es with
  | [] => Ok acc
  | (u, v) :: es' =>
      m ← msg eid u;
      r ← from_option IndexError (acc !! v);
      g_scatter_add msg es' (S eid) (<[v := g_vadd r m]> acc)
  end.

Definition g_div_degrees (z : list (list (scalar A))) (degs : list nat)
    : list (list (scalar A)) :=
  zip_with (λ r d, map (λ a, a_div A a (a_of_nat A (d `max` 1))) r) z degs.

Definition g_zeros (n c : nat) : list (list (scalar A)) :=
  replicate n (replicate c (a_zero A)).

(** [DGL.u_mul_e_mean] over [A]. *)
Definition g_u_mul_e_mean (g : DGLGraph) (x y : GTensor A) : res (GTensor A) :=
  c ← from_option DGLError_broadcast (broadcast_dim (gcols x) (gcols y));
  z ← g_scatter_add
         (λ eid u, xu ← from_option IndexError (grows x !! u);
                   ye ← from_option IndexError (grows y !! eid);
                   Ok (g_vmul c xu ye))
         (edges g) 0 (g_zeros (num_nodes g) c);
  Ok (mkG c (g_div_degrees z (in_degrees g))).

(** The value of [h_neigh] in [forward]: the row checks of
    [g.ndata['h'] = h] and [g.edata['w'] = w], then the kernel (what
    [aggregate] does, by [aggregate_builtin], without the graph object). *)
Definition g_neighbor_repr (g : DGLGraph) (h w : GTensor A) : res (GTensor A) :=
  if decide (length (grows h) = num_nodes g) then
    if decide (length (grows w) = num_edges g) then g_u_mul_e_mean g h w
    else Err DGLError_edge_rows
  else Err DGLError_node_rows.

(** The incoming edges of [v] with their weight rows, in edge-id order
    ([incoming] over [A]). *)
Definition g_incoming (es : list (nat * nat)) (ws : list (list (scalar A)))
    (v : nat) : list (nat * list (scalar A)) :=
  omap (λ p, if decide (p.1.2 = v) then Some (p.1.1, p.2) else None) (zip es ws).

Fixpoint g_messages_into (f : nat → nat → list (scalar A)) (es : list (nat * nat))
    (eid v : nat) : list (list (scalar A)) :=
  match es with
  | [] => []
  | (u, v') :: es' =>
      if decide (v' = v) then f eid u :: g_messages_into f es' (S eid) v
      else g_messages_into f es' (S eid) v
  end.

Definition g_edge_product (c : nat) (x : GTensor A) (p : nat * list (scalar A))
    : list (scalar A) :=
  g_vmul c (default [] (grows x !! p.1)) p.2.

(** Row [v] of the result of the kernel: the products of the edges into
    [v] added from the left in edge-id order, starting from zero, then
    divided by the clamped in-degree. *)
Definition g_mean_row (c : nat) (x : GTensor A) (es : list (nat * nat))
    (ws : list (list (scalar A))) (v : nat) : list (scalar A) :=
  map (λ a, a_div A a (a_of_nat A (length (filter (λ e, e.2 = v) es) `max` 1)))
      (foldl g_vadd (replicate c (a_zero A))
             (map (g_edge_product c x) (g_incoming es ws v))).

(** A vector multiplied entry by entry by [c]. *)
Definition g_scale (c : scalar A) (x : list (scalar A)) : list (scalar A) :=
  map (λ a, a_mul A a c) x.

(** Sums that do not depend on the order of the terms. *)
Definition exact_sums : Prop :=
  (∀ x y, a_add A x y = a_add A y x) ∧
  (∀ x y z, a_add A x (a_add A y z) = a_add A (a_add A x y) z).

(** Multiplication by [c] commutes with the products, the sums and the
    quotients of the mean. *)
Definition exact_scaling (c : scalar A) : Prop :=
  (∀ x a, a_mul A x (a_mul A c a) = a_mul A (a_mul A x a) c) ∧
  (∀ x y, a_mul A (a_add A x y) c = a_add A (a_mul A x c) (a_mul A y c)) ∧
  a_mul A (a_zero A) c = a_zero A ∧
  (∀ x d, a_div A (a_mul A x c) d = a_mul A (a_div A x d) c).

End Kernel.

(** ** Examples in binary64

    Node 4 with four incoming edges of weight 1 whose sources carry
    2^53, 1, -2^53 and 3, the edges listed in two orders. *)
Definition ex64_h : GTensor binary64 :=
  @mkG binary64 1 [[9007199254740992%float]; [1%float]; [(-9007199254740992)%float];
         [3%float]; [0%float]].
Definition ex64_ew : list ((nat * nat) * list float) :=
  [((0, 4)%nat, [1%float]); ((1, 4)%nat, [1%float]);
   ((2, 4)%nat, [1%float]); ((3, 4)%nat, [1%float])].
Definition ex64_ew' : list ((nat * nat) * list float) :=
  [((0, 4)%nat, [1%float]); ((2, 4)%nat, [1%float]);
   ((1, 4)%nat, [1%float]); ((3, 4)%nat, [1%float])].

(** Three edges of a 3-node graph, two of them into node 2, listed in two
    orders that keep the edges into node 2 in the same relative order. *)
Definition ex64_h3 : GTensor binary64 :=
  @mkG binary64 1 [[9007199254740992%float]; [1%float]; [0%float]].
Definition ex64_ew3 : list ((nat * nat) * list float) :=
  [((0, 2)%nat, [1%float]); ((0, 1)%nat, [3%float]); ((1, 2)%nat, [1%float])].
Definition ex64_ew3' : list ((nat * nat) * list float) :=
  [((0, 1)%nat, [3%float]); ((0, 2)%nat, [1%float]); ((1, 2)%nat, [1%float])].

(** One edge 0 -> 1 with weight 1.5, feature 0.1 (the binary64 number
    nearest to it) at its source; the weight multiplied by 3. *)
Definition ex64_g1 : DGLGraph := mkGraph 2 [(0, 1)]%nat ∅ ∅.
Definition ex64_h1 : GTensor binary64 :=
  @mkG binary64 1 [[0x1.999999999999ap-4%float]; [0%float]].
Definition ex64_w1 : GTensor binary64 := @mkG binary64 1 [[1.5%float]].
Definition ex64_w1' : GTensor binary64 := @mkG binary64 1 [[4.5%float]].

(** ** Edge weights of rank 1

    A weight tensor may have shape (E,) instead of (E, 1). The edge frame
    keeps it under its name; the built-in message function and torch's
    [*] see it differently. *)

Inductive RTensor : Type :=
  | Rank1 (v : list Qc)    (* shape (len v,) *)
  | Rank2 (t : Tensor).    (* shape (nrows t, ncols t) *)

(** How DGL's built-in binary message functions use a field: feature
    shapes are padded with 1, a field of shape (n,) counts as (n, 1). *)
Definition dgl_feature (t : RTensor) : Tensor :=
  match t with
  | Rank1 v => mkTensor 1 (map (λ c, [c]) v)
  | Rank2 t => t
  end.

(** How torch's [*] uses an operand next to a 2-D one: trailing
    dimensions are aligned, a tensor of shape (n,) counts as (1, n). *)
Definition torch_operand (t : RTensor) : Tensor :=
  match t with
  | Rank1 v => mkTensor (length v) [v]
  | Rank2 t => t
  end.

(** The [edges] argument of a user-defined function when fields keep
    their rank. *)
Record EdgeBatchR : Type := mkEdgeBatchR {
  src_r : string → res Tensor;
  data_r : string → res RTensor;
  dst_r : string → res Tensor
}.

(** The edge batch of a graph whose edge field ['w'] is the ranked tensor
    [w] (the edge frame of [DGLGraph] holds [dgl_feature w], which has the
    same number of rows). *)
Definition rank_batch (w : RTensor) (eb : EdgeBatch) : EdgeBatchR :=
  {| src_r := src eb;
     data_r := λ k, t ← data eb k; Ok (if decide (k = "w") then w else Rank2 t);
     dst_r := dst eb |}.

(** [u_mul_e_udf(edges)] on such a batch. *)
Definition u_mul_e_udf_ranked (edges : EdgeBatchR) : res (gmap string Tensor) :=
  hs ← src_r edges "h";
  we ← data_r edges "w";
  m ← mul hs (torch_operand we);
  Ok {[ "m" := m ]}.

(** [forward] for a ranked weight tensor, with the built-in message
    function and with [u_mul_e_udf] in its place; and the value of
    [h_neigh] in both. *)
Definition forward_ranked (self : GraphConvWithEdgeWeight) (h : Tensor)
    (w : RTensor) : M Tensor :=
  forward self h (dgl_feature w).

Definition forward_udf_ranked (self : GraphConvWithEdgeWeight) (h : Tensor)
    (w : RTensor) : M Tensor :=
  forward_with (UDF (λ eb, u_mul_e_udf_ranked (rank_batch w eb))) self h
               (dgl_feature w).

Definition neighbor_repr_ranked (g : DGLGraph) (h : Tensor) (w : RTensor)
    : res Tensor :=
  neighbor_repr g h (dgl_feature w).

Definition neighbor_repr_udf_ranked (g : DGLGraph) (h : Tensor) (w : RTensor)
    : res Tensor :=
  fst <$> aggregate (UDF (λ eb, u_mul_e_udf_ranked (rank_batch w eb))) h
                    (dgl_feature w) g.

(** All-one features of width 2 and the rank-1 weights (1/2, 1/4). *)
Definition ex_ones : Tensor := mkTensor 2 [[1; 1]; [1; 1]; [1; 1]].
Definition ex_w_rank1 : RTensor := Rank1 [q 1 2; q 1 4].

(** ** Vectors *)

Lemma vadd_comm (x y : list Qc) : vadd x y = vadd y x.
Proof.
  unfold vadd. revert y.
  induction x as [|a x IH]; intros [|b y]; simpl; try done.
  by rewrite Qcplus_comm, IH.
Qed.

Lemma vadd_assoc (x y z : list Qc) : vadd x (vadd y z) = vadd (vadd x y) z.
Proof.
  unfold vadd. revert y z.
  induction x as [|a x IH]; intros [|b y] [|c z]; simpl; try done.
  by rewrite Qcplus_assoc, IH.
Qed.

Lemma vadd_swap (a m x : list Qc) : vadd (vadd a m) x = vadd (vadd a x) m.
Proof.
  rewrite <- !vadd_assoc. f_equal. apply vadd_comm.
Qed.

Lemma foldl_vadd_shift (a m : list Qc) (ms : list (list Qc)) :
  foldl vadd (vadd a m) ms = vadd m (foldl vadd a ms).
Proof.
  revert a. induction ms as [|x ms IH]; intros a; simpl.
  - apply vadd_comm.
  - rewrite vadd_swap. apply IH.
Qed.

(** The kernel adds the messages one by one from the left; the result is
    the sum of the specification. *)
Lemma foldl_vadd_vsum (n : nat) (ms : list (list Qc)) :
  foldl vadd (replicate n 0) ms = vsum n ms.
Proof.
  unfold vsum. generalize (replicate n 0) as a.
  induction ms as [|m ms IH]; intros a; simpl; [done|].
  by rewrite foldl_vadd_shift, IH.
Qed.

Lemma vsum_Permutation (n : nat) (ms ms' : list (list Qc)) :
  ms ≡ₚ ms' → vsum n ms = vsum n ms'.
Proof.
  unfold vsum. induction 1 as [|x l l' _ IH|x y l|l l' l'' _ IH1 _ IH2]; simpl.
  - done.
  - by rewrite IH.
  - by rewrite !vadd_assoc, (vadd_comm y x).
  - by rewrite IH1.
Qed.

Lemma vsum_length (n : nat) (ms : list (list Qc)) :
  Forall (λ m, length m = n) ms → length (vsum n ms) = n.
Proof.
  unfold vsum, vadd. induction 1 as [|m ms Hm _ IH]; simpl.
  - apply length_replicate.
  - rewrite length_zip_with, IH, Hm. lia.
Qed.

(** ** The scatter kernel *)

Lemma imap_id_lookup {A} (f : nat → A → A) (l : list A) :
  (∀ i x, l !! i = Some x → f i x = x) → imap f l = l.
Proof.
  intros H. apply list_eq. intros i. rewrite list_lookup_imap.
  destruct (l !! i) as [x|] eqn:E; simpl; [|done]. by rewrite (H i x E).
Qed.

Lemma scatter_add_closed (msg : nat → nat → res (list Qc)) (f : nat → nat → list Qc)
    (es : list (nat * nat)) (eid : nat) (acc : list (list Qc)) :
  (∀ i u v, es !! i = Some (u, v) →
            msg (eid + i)%nat u = Ok (f (eid + i)%nat u) ∧ (v < length acc)%nat) →
  scatter_add msg es eid acc =
    Ok (imap (λ v r, foldl vadd r (messages_into f es eid v)) acc).
Proof.
  revert eid acc. induction es as [|[u v] es IH]; intros eid acc H; simpl.
  - f_equal. symmetry. by apply imap_id_lookup.
  - destruct (H 0%nat u v eq_refl) as [Hm Hv]. rewrite Nat.add_0_r in Hm.
    rewrite Hm. simpl.
    destruct (lookup_lt_is_Some_2 acc v Hv) as [r Hr]. rewrite Hr. simpl.
    rewrite IH.
    + f_equal. apply list_eq. intros i. rewrite !list_lookup_imap.
      destruct (decide (v = i)) as [->|Hne].
      * rewrite list_lookup_insert_eq by done. by rewrite Hr.
      * by rewrite list_lookup_insert_ne.
    + intros i u' v' Hi. rewrite length_insert.
      replace (S eid + i)%nat with (eid + S i)%nat by lia. by apply H.
Qed.

Lemma scatter_add_length (msg : nat → nat → res (list Qc)) (es : list (nat * nat))
    (eid : nat) (acc acc' : list (list Qc)) :
  scatter_add msg es eid acc = Ok acc' → length acc' = length acc.
Proof.
  revert eid acc. induction es as [|[u v] es IH]; intros eid acc; simpl.
  - by intros [= ->].
  - destruct (msg eid u) as [e|m]; simpl; [done|].
    destruct (acc !! v) as [r|]; simpl; [|done].
    intros H. apply IH in H. by rewrite length_insert in H.
Qed.

Lemma scatter_add_ext (msg1 msg2 : nat → nat → res (list Qc))
    (es : list (nat * nat)) (eid : nat) (acc : list (list Qc)) :
  (∀ i u v, es !! i = Some (u, v) → msg1 (eid + i)%nat u = msg2 (eid + i)%nat u) →
  scatter_add msg1 es eid acc = scatter_add msg2 es eid acc.
Proof.
  revert eid acc. induction es as [|[u v] es IH]; intros eid acc H; simpl; [done|].
  pose proof (H 0%nat u v eq_refl) as H0. rewrite Nat.add_0_r in H0.
  rewrite <- H0. clear H0.
  destruct (msg1 eid u) as [e|m]; simpl; [done|].
  destruct (acc !! v) as [r|]; simpl; [|done].
  apply IH. intros i u' v' Hi.
  replace (S eid + i)%nat with (eid + S i)%nat by lia. by apply (H (S i) u' v').
Qed.

Lemma messages_into_incoming (c : nat) (x : Tensor) (es : list (nat * nat))
    (ws : list (list Qc)) (eid v : nat) :
  (eid + length es ≤ length ws)%nat →
  messages_into (λ i u, vmul c (default [] (rows x !! u)) (default [] (ws !! i))) es eid v
  = map (edge_product c x) (incoming es (drop eid ws) v).
Proof.
  revert eid. induction es as [|[u v'] es IH]; intros eid Hlen; simpl in *.
  - done.
  - destruct (lookup_lt_is_Some_2 ws eid) as [w0 Hw0]; [lia|].
    rewrite (drop_S _ _ _ Hw0), Hw0. unfold incoming in *. simpl.
    rewrite IH by lia.
    destruct (decide (v' = v)); simpl; done.
Qed.

Lemma graph_ok_lookup (g : DGLGraph) (i u v : nat) :
  graph_ok g = true → edges g !! i = Some (u, v) →
  (u < num_nodes g)%nat ∧ (v < num_nodes g)%nat.
Proof.
  unfold graph_ok. rewrite forallb_forall. intros H Hi.
  specialize (H (u, v)). simpl in H.
  assert (In (u, v) (edges g)) as Hin.
  { apply list_elem_of_In. by eapply list_elem_of_lookup_2. }
  apply H in Hin. apply andb_true_iff in Hin as [H1 H2].
  apply Nat.ltb_lt in H1, H2. done.
Qed.

Lemma in_degrees_lookup (g : DGLGraph) (v : nat) :
  (v < num_nodes g)%nat → in_degrees g !! v = Some (in_degree g v).
Proof.
  intros Hv. unfold in_degrees.
  by rewrite list_lookup_fmap, lookup_seq_lt.
Qed.

(** The fused kernel in closed form: on a well-formed graph with one row
    of [x] per node and one row of [y] per edge it returns, and row [v] is
    the sum of the products of the edges into [v], divided by the clamped
    in-degree. *)
Lemma u_mul_e_mean_closed (g : DGLGraph) (x y : Tensor) (c : nat) :
  graph_ok g = true → nrows x = num_nodes g → nrows y = num_edges g →
  broadcast_dim (ncols x) (ncols y) = Some c →
  u_mul_e_mean g x y =
    Ok (mkTensor c (map (mean_row c x (edges g) (rows y)) (seq 0 (num_nodes g)))).
Proof.
  intros Hg Hx Hy Hc. unfold u_mul_e_mean. rewrite Hc. simpl.
  rewrite (scatter_add_closed _
    (λ i u, vmul c (default [] (rows x !! u)) (default [] (rows y !! i)))).
  - simpl. do 2 f_equal. apply list_eq. intros v.
    unfold div_degrees, zeros.
    rewrite lookup_zip_with, list_lookup_imap, list_lookup_fmap.
    destruct (decide (v < num_nodes g)%nat) as [Hv|Hv].
    + rewrite lookup_replicate_2, in_degrees_lookup, lookup_seq_lt by done.
      simpl. f_equal. unfold mean_row, in_degree.
      rewrite messages_into_incoming by (unfold nrows, num_edges in Hy; lia).
      done.
    + rewrite (proj1 (lookup_replicate_None _ _ _)), lookup_seq_ge by lia.
      done.
  - intros i u v Hi. simpl.
    destruct (graph_ok_lookup g i u v Hg Hi) as [Hu Hv].
    unfold zeros. rewrite length_replicate. split; [|done].
    destruct (lookup_lt_is_Some_2 (rows x) u) as [xu ->]; [unfold nrows in Hx; lia|].
    destruct (lookup_lt_is_Some_2 (rows y) i) as [yi ->]; [|done].
    apply lookup_lt_Some in Hi. unfold nrows, num_edges in Hy. lia.
Qed.

Lemma in_degrees_length (g : DGLGraph) : length (in_degrees g) = num_nodes g.
Proof. unfold in_degrees. by rewrite length_map, length_seq. Qed.

Lemma u_mul_e_mean_nrows (g : DGLGraph) (x y t : Tensor) :
  u_mul_e_mean g x y = Ok t → nrows t = num_nodes g.
Proof.
  unfold u_mul_e_mean.
  destruct (broadcast_dim (ncols x) (ncols y)) as [c|]; simpl; [|done].
  destruct (scatter_add _ _ _ _) as [e|z] eqn:Hz; simpl; [done|].
  intros [= <-]. apply scatter_add_length in Hz.
  unfold nrows, div_degrees, zeros in *. simpl.
  rewrite length_zip_with, Hz, length_replicate, in_degrees_length. lia.
Qed.

Lemma copy_e_mean_nrows (g : DGLGraph) (m t : Tensor) :
  copy_e_mean g m = Ok t → nrows t = num_nodes g.
Proof.
  unfold copy_e_mean.
  destruct (scatter_add _ _ _ _) as [e|z] eqn:Hz; simpl; [done|].
  intros [= <-]. apply scatter_add_length in Hz.
  unfold nrows, div_degrees, zeros in *. simpl.
  rewrite length_zip_with, Hz, length_replicate, in_degrees_length. lia.
Qed.

(** ** The [with] block of [forward], statement by statement *)

Lemma aggregate_builtin (g : DGLGraph) (h w : Tensor) :
  aggregate (fn.u_mul_e "h" "w" "m") h w g =
    if decide (nrows h = num_nodes g) then
      if decide (nrows w = num_edges g) then
        match u_mul_e_mean g h w with
        | inl e => inl e
        | inr z => Ok (z, scoped g h w z)
        end
      else Err DGLError_edge_rows
    else Err DGLError_node_rows.
Proof.
  unfold aggregate, mbind, M_bind, set_n_repr at 1.
  destruct (decide (nrows h = num_nodes g)) as [Hh|]; [|done].
  unfold set_e_repr, num_edges. simpl.
  destruct (decide (nrows w = length (edges g))) as [Hw|]; [|done].
  unfold update_all, message_passing, fn.u_mul_e, fn.mean. simpl.
  rewrite !lookup_insert_eq. simpl.
  change (u_mul_e_mean _ h w) with (u_mul_e_mean g h w).
  destruct (u_mul_e_mean g h w) as [e|z] eqn:Hz; simpl; [done|].
  unfold set_n_repr. simpl.
  rewrite decide_True by (by eapply u_mul_e_mean_nrows).
  unfold get_n_repr. simpl. by rewrite lookup_insert_eq.
Qed.

(** ** The aggregation under the contract *)

Lemma contract_inv (g : DGLGraph) (h w : Tensor) :
  contract g h w = true →
  graph_ok g = true ∧ nrows h = num_nodes g ∧ tensor_ok h = true ∧
  nrows w = num_edges g ∧ ncols w = 1%nat ∧ tensor_ok w = true.
Proof.
  unfold contract. rewrite !andb_true_iff, !Nat.eqb_eq. tauto.
Qed.

Lemma tensor_ok_lookup (t : Tensor) (i : nat) (r : list Qc) :
  tensor_ok t = true → rows t !! i = Some r → length r = ncols t.
Proof.
  unfold tensor_ok. rewrite forallb_forall. intros H Hi.
  apply Nat.eqb_eq, H, list_elem_of_In. by eapply list_elem_of_lookup_2.
Qed.

Lemma broadcast_dim_1_r (n : nat) : broadcast_dim n 1 = Some n.
Proof. unfold broadcast_dim. repeat case_decide; congruence. Qed.

Lemma zip_with_replicate_scalar (c : Qc) (x : list Qc) :
  zip_with Qcmult x (replicate (length x) c) = scale c x.
Proof. induction x as [|a x IH]; simpl; [done|]. by rewrite IH. Qed.

Lemma vmul_scalar (n : nat) (c : Qc) (x : list Qc) :
  length x = n → vmul n x [c] = scale c x.
Proof.
  intros <-. unfold vmul. simpl.
  destruct x as [|a [|b x]]; [done|done|].
  apply (zip_with_replicate_scalar c (a :: b :: x)).
Qed.

Lemma incoming_length (es : list (nat * nat)) (ws : list (list Qc)) (v : nat) :
  length ws = length es →
  length (incoming es ws v) = length (filter (λ e, e.2 = v) es).
Proof.
  unfold incoming. revert ws.
  induction es as [|[u v'] es IH]; intros [|w0 ws] Hlen; simpl in *; try done.
  rewrite filter_cons. simpl.
  destruct (decide (v' = v)); simpl; rewrite IH by lia; done.
Qed.

Lemma incoming_elem (es : list (nat * nat)) (ws : list (list Qc)) (v u : nat)
    (we : list Qc) :
  (u, we) ∈ incoming es ws v → ∃ i, es !! i = Some (u, v) ∧ ws !! i = Some we.
Proof.
  unfold incoming. rewrite list_elem_of_omap.
  intros ([[u' v'] we'] & Hin & Hf). simpl in Hf.
  destruct (decide (v' = v)) as [->|]; [|done]. injection Hf as -> ->.
  apply list_elem_of_lookup in Hin as [i Hi].
  apply lookup_zip_with_Some in Hi as (e & y & Heq & He & Hy).
  injection Heq as <- <-. by exists i.
Qed.

Lemma mapM_total {A B} (f : A → option B) (g : A → B) (l : list A) :
  Forall (λ a, f a = Some (g a)) l → mapM f l = Some (map g l).
Proof.
  intros H. apply mapM_Some. induction H; simpl; constructor; done.
Qed.

(** Under the contract the product formed by the kernel for an incoming
    edge is the message of the specification. *)
Lemma message_edge_product (g : DGLGraph) (h w : Tensor) (v : nat) :
  contract g h w = true →
  Forall (λ p, message h p = Some (edge_product (ncols h) h p))
         (incoming (edges g) (rows w) v).
Proof.
  intros (Hg & Hh & Hhok & Hw & Hw1 & Hwok)%contract_inv.
  apply Forall_forall. intros [u we] (i & Hi & Hwe)%incoming_elem.
  destruct (graph_ok_lookup g i u v Hg Hi) as [Hu _].
  destruct (lookup_lt_is_Some_2 (rows h) u) as [hu Hhu]; [unfold nrows in Hh; lia|].
  unfold message, edge_product. simpl. rewrite Hhu. simpl.
  pose proof (tensor_ok_lookup w i we Hwok Hwe) as Hlen. rewrite Hw1 in Hlen.
  destruct we as [|c [|c' we]]; simpl in Hlen; try done.
  f_equal. symmetry. apply vmul_scalar. by eapply tensor_ok_lookup.
Qed.

Lemma neighbor_repr_closed (g : DGLGraph) (h w : Tensor) :
  contract g h w = true →
  neighbor_repr g h w =
    Ok (mkTensor (ncols h)
          (map (mean_row (ncols h) h (edges g) (rows w)) (seq 0 (num_nodes g)))).
Proof.
  intros (Hg & Hh & Hhok & Hw & Hw1 & Hwok)%contract_inv.
  unfold neighbor_repr. rewrite aggregate_builtin.
  rewrite !decide_True by done.
  rewrite (u_mul_e_mean_closed g h w (ncols h)); try done.
  rewrite Hw1. apply broadcast_dim_1_r.
Qed.

Lemma neighbor_repr_row (g : DGLGraph) (h w t : Tensor) (v : nat) :
  contract g h w = true → neighbor_repr g h w = Ok t → (v < num_nodes g)%nat →
  rows t !! v = Some (mean_row (ncols h) h (edges g) (rows w) v).
Proof.
  intros Hc Ht Hv. rewrite (neighbor_repr_closed g h w Hc) in Ht.
  injection Ht as <-. simpl. by rewrite list_lookup_fmap, lookup_seq_lt.
Qed.



Lemma Qcdiv_0_l (x : Qc) : 0 / x = 0.
Proof. unfold Qcdiv. apply Qcmult_0_l. Qed.

(** C6 (functional correctness). Under the contract the aggregation
    returns, and every node of in-degree 0 gets the zero vector of the
    feature width as its [neighbor_repr]. *)
Theorem zero_in_degree_gets_zero_vector (g : DGLGraph) (h w : Tensor) :
  contract g h w = true →
  ∃ t, neighbor_repr g h w = Ok t ∧
    ∀ v, (v < num_nodes g)%nat → in_degree g v = 0%nat →
      rows t !! v = Some (replicate (ncols h) 0).
Proof.
  intros Hc. eexists. split; [by apply neighbor_repr_closed|].
  intros v Hv Hk. simpl.
  pose proof Hc as (Hg & Hh & Hhok & Hw & Hw1 & Hwok)%contract_inv.
  rewrite list_lookup_fmap, lookup_seq_lt by done. simpl. f_equal.
  unfold mean_row. fold (in_degree g v).
  assert (incoming (edges g) (rows w) v = []) as ->.
  { apply length_zero_iff_nil. rewrite incoming_length by done. done. }
  simpl. rewrite Hk. simpl.
  induction (ncols h) as [|n IH]; simpl; [done|].
  by rewrite IH, Qcdiv_0_l.
Qed.

Lemma zero_in_degree_gets_zero_vector_witness :
  contract ex_g ex_h ex_w = true ∧
  ∃ t, neighbor_repr ex_g ex_h ex_w = Ok t ∧
    ∀ v, (v < num_nodes ex_g)%nat → in_degree ex_g v = 0%nat →
      rows t !! v = Some (replicate (ncols ex_h) 0).
Proof.
  split; [reflexivity|].
  apply (zero_in_degree_gets_zero_vector ex_g ex_h ex_w). reflexivity.
Defined.

Lemma forallb_Permutation {A} (f : A → bool) (l l' : list A) :
  l ≡ₚ l' → forallb f l = forallb f l'.
Proof.
  induction 1 as [|x l l' _ IH|x y l|l l' l'' _ IH1 _ IH2]; simpl.
  - done.
  - by rewrite IH.
  - by rewrite !andb_assoc, (andb_comm (f y)).
  - by rewrite IH1.
Qed.

(** ** The whole of [forward] *)

Lemma forward_with_unfold (mfunc : MessageFunction) (self : GraphConvWithEdgeWeight)
    (h w : Tensor) (g : DGLGraph) :
  forward_with mfunc self h w g =
    match aggregate mfunc h w g with
    | inl e => inl e
    | inr (z, g') =>
        match cat1 h z with
        | inl e => inl e
        | inr ht =>
            match Linear_call (linear self) ht with
            | inl e => inl e
            | inr y => Ok (relu y, mkGraph (num_nodes g') (edges g') (ndata g) (edata g))
            end
        end
    end.
Proof.
  unfold forward_with, local_scope, mbind, M_bind, lift, mret, M_ret.
  destruct (aggregate mfunc h w g) as [err|[z g']]; [done|].
  destruct (cat1 h z) as [err|ht]; [done|].
  destruct (Linear_call (linear self) ht) as [err|y]; done.
Qed.

(** The statements of the [with] block change the frames only. *)
Lemma aggregate_structure (mfunc : MessageFunction) (h w z : Tensor) (g g' : DGLGraph) :
  aggregate mfunc h w g = Ok (z, g') →
  num_nodes g' = num_nodes g ∧ edges g' = edges g.
Proof.
  unfold aggregate, mbind, M_bind, set_n_repr at 1.
  destruct (decide (nrows h = num_nodes g)); [|done].
  unfold set_e_repr. simpl.
  destruct (decide (nrows w = _)); [|done].
  unfold update_all.
  destruct (message_passing _ mfunc _) as [err|[o t]]; [done|].
  unfold set_n_repr. simpl.
  destruct (decide (nrows t = num_nodes g)); [|done].
  unfold get_n_repr. simpl.
  destruct (_ !! "h_neigh") as [t'|]; [|done].
  by intros [= <- <-].
Qed.

(** Inside the scope the temporary fields are attached to the graph. *)
Lemma aggregate_attaches_fields (h w z : Tensor) (g g' : DGLGraph) :
  aggregate (fn.u_mul_e "h" "w" "m") h w g = Ok (z, g') →
  ndata g' !! "h" = Some h ∧ edata g' !! "w" = Some w ∧
  ndata g' !! "h_neigh" = Some z.
Proof.
  rewrite aggregate_builtin.
  destruct (decide (nrows h = num_nodes g)); [|done].
  destruct (decide (nrows w = num_edges g)); [|done].
  destruct (u_mul_e_mean g h w) as [err|z']; [done|].
  intros [= <- <-]. unfold scoped. simpl.
  rewrite lookup_insert_ne by done. by rewrite !lookup_insert_eq.
Qed.

(** C3 (frame). When [forward] returns, the graph object is exactly as it
    was before the call: same nodes and edges, same node data and edge
    data; the fields [h], [w] and [h_neigh] written inside the scope are
    gone (or have the values they had before). The tensors [h] and [w]
    are values that no statement of [forward] updates in place. *)
Theorem forward_leaves_graph_unchanged (self : GraphConvWithEdgeWeight)
    (g g' : DGLGraph) (h w out : Tensor) :
  forward self h w g = Ok (out, g') →
  g' = g ∧ ndata g' = ndata g ∧ edata g' = edata g.
Proof.
  unfold forward. rewrite forward_with_unfold.
  destruct (aggregate _ h w g) as [err|[z gs]] eqn:Hagg; [done|].
  destruct (cat1 h z) as [err|ht]; [done|].
  destruct (Linear_call (linear self) ht) as [err|y]; [done|].
  intros [= _ <-].
  destruct (aggregate_structure _ _ _ _ _ _ Hagg) as [-> ->].
  by destruct g.
Qed.

Lemma forward_leaves_graph_unchanged_witness :
  forward ex_conv ex_h ex_w ex_g_fields
    = Ok (mkTensor 1 [[q 2 1]; [q 2 1]; [q 1 1]], ex_g_fields) ∧
  ex_g_fields = ex_g_fields ∧
  ndata ex_g_fields = ndata ex_g_fields ∧ edata ex_g_fields = edata ex_g_fields.
Proof.
  split; [reflexivity|].
  apply (forward_leaves_graph_unchanged ex_conv ex_g_fields ex_g_fields ex_h ex_w
           (mkTensor 1 [[q 2 1]; [q 2 1]; [q 1 1]])).
  reflexivity.
Defined.

Lemma u_mul_e_mean_structure (g1 g2 : DGLGraph) (x y : Tensor) :
  num_nodes g1 = num_nodes g2 → edges g1 = edges g2 →
  u_mul_e_mean g1 x y = u_mul_e_mean g2 x y.
Proof.
  intros Hn He. unfold u_mul_e_mean, in_degrees, in_degree.
  by rewrite Hn, He.
Qed.

(** C9 (determinism). What [forward] returns or raises is a function of
    the graph's nodes and edges, the features, the weights and the layer's
    parameters alone: two calls on graph objects with the same nodes and
    edges, whatever fields the objects carry, have the same outcome. *)
Theorem forward_deterministic (self : GraphConvWithEdgeWeight)
    (g1 g2 : DGLGraph) (h w : Tensor) :
  num_nodes g1 = num_nodes g2 → edges g1 = edges g2 →
  output self g1 h w = output self g2 h w.
Proof.
  intros Hn He. unfold output, forward. rewrite !forward_with_unfold.
  rewrite !aggregate_builtin. unfold num_edges.
  rewrite (u_mul_e_mean_structure g1 g2 h w Hn He), Hn, He.
  destruct (decide (nrows h = num_nodes g2)); [|done].
  destruct (decide (nrows w = length (edges g2))); [|done].
  destruct (u_mul_e_mean g2 h w) as [err|z]; [done|].
  destruct (cat1 h z) as [err|ht]; [done|].
  destruct (Linear_call (linear self) ht) as [err|y]; done.
Qed.

Lemma forward_deterministic_witness :
  num_nodes ex_g = num_nodes ex_g_fields ∧ edges ex_g = edges ex_g_fields ∧
  output ex_conv ex_g ex_h ex_w = output ex_conv ex_g_fields ex_h ex_w.
Proof.
  split; [reflexivity|]. split; [reflexivity|].
  apply (forward_deterministic ex_conv ex_g ex_g_fields ex_h ex_w); reflexivity.
Defined.

(** ** Failures *)

Lemma neighbor_repr_aggregate (g : DGLGraph) (h w t : Tensor) :
  neighbor_repr g h w = Ok t →
  ∃ g', aggregate (fn.u_mul_e "h" "w" "m") h w g = Ok (t, g').
Proof.
  unfold neighbor_repr.
  destruct (aggregate _ h w g) as [err|[z g']]; [done|].
  intros [= <-]. by exists g'.
Qed.

(** C4 (error handling). On inputs that meet the contract, node features
    whose width differs from the width the layer was configured for make
    [forward] raise the shape error of the linear layer (the spec's
    DimensionMismatch); nothing is returned. *)
Theorem width_mismatch_raises (in_feat out_feat : nat) (W : list (list Qc))
    (b : list Qc) (g : DGLGraph) (h w : Tensor) :
  contract g h w = true → ncols h ≠ in_feat →
  forward (__init__ in_feat out_feat W b) h w g = Err RuntimeError_matmul.
Proof.
  intros Hc Hne.
  destruct (neighbor_repr_aggregate g h w _ (neighbor_repr_closed g h w Hc))
    as [g' Hagg].
  pose proof Hc as (Hg & Hh & Hhok & Hw & Hw1 & Hwok)%contract_inv.
  unfold forward. rewrite forward_with_unfold, Hagg.
  unfold cat1, nrows. simpl. rewrite length_map, length_seq.
  rewrite decide_True by done.
  unfold Linear_call. simpl. rewrite decide_False by lia. done.
Qed.

Lemma width_mismatch_raises_witness :
  contract ex_g ex_h3 ex_w = true ∧ ncols ex_h3 ≠ 5%nat ∧
  forward (__init__ 5 1 [[q 1 1; q 1 1; q 1 1; q 1 1; q 1 1;
                      q 1 1; q 1 1; q 1 1; q 1 1; q 1 1]] [q 0 1]) ex_h3 ex_w ex_g
    = Err RuntimeError_matmul.
Proof.
  split; [reflexivity|]. split; [simpl; lia|].
  apply (width_mismatch_raises 5 1 _ _ ex_g ex_h3 ex_w); [reflexivity|simpl; lia].
Defined.

Lemma scatter_add_raises (msg : nat → nat → res (list Qc)) (es : list (nat * nat))
    (eid : nat) (acc : list (list Qc)) (e : Exn) :
  (∀ i u e', msg i u = Err e' → e' = IndexError) →
  scatter_add msg es eid acc = Err e → e = IndexError.
Proof.
  intros Hmsg. revert eid acc.
  induction es as [|[u v] es IH]; intros eid acc; simpl; [done|].
  destruct (msg eid u) as [e'|m] eqn:Hm; simpl.
  - intros [= <-]. by eapply Hmsg.
  - destruct (acc !! v) as [r|]; simpl; [apply IH|]. by intros [= <-].
Qed.

Lemma u_mul_e_mean_raises (g : DGLGraph) (x y : Tensor) (e : Exn) :
  u_mul_e_mean g x y = Err e → e = DGLError_broadcast ∨ e = IndexError.
Proof.
  unfold u_mul_e_mean.
  destruct (broadcast_dim (ncols x) (ncols y)) as [c|]; simpl;
    [|intros [= <-]; by left].
  destruct (scatter_add _ _ _ _) as [e'|z] eqn:Hz; simpl; [|done].
  intros [= <-]. right. eapply scatter_add_raises; [|exact Hz].
  intros i u e2. simpl.
  destruct (rows x !! u); simpl; [|by intros [= <-]].
  destruct (rows y !! i); simpl; [done|]. by intros [= <-].
Qed.

(** C5 (error handling). With one row of [h] per node, a weight tensor
    that has fewer rows than the graph has edges, so that some edge has no
    weight, makes [forward] raise the row-count error of [g.edata] (the
    spec's UndefinedWeight); with one row of [w] per edge, [forward] never
    raises that error. *)
Theorem missing_weight_raises (self : GraphConvWithEdgeWeight) (g : DGLGraph)
    (h w : Tensor) :
  (nrows h = num_nodes g → (nrows w < num_edges g)%nat →
   forward self h w g = Err DGLError_edge_rows) ∧
  (nrows w = num_edges g → forward self h w g ≠ Err DGLError_edge_rows).
Proof.
  unfold forward. rewrite forward_with_unfold, aggregate_builtin. split.
  - intros Hh Hw. rewrite decide_True by done. rewrite decide_False by lia. done.
  - intros Hw. rewrite (decide_True _ _ Hw).
    destruct (decide (nrows h = num_nodes g)); [|done].
    destruct (u_mul_e_mean g h w) as [err|z] eqn:Hz.
    + apply u_mul_e_mean_raises in Hz as [-> | ->]; done.
    + unfold cat1. destruct (decide (nrows h = nrows z)); [|done].
      unfold Linear_call. simpl. by destruct (decide (_ = in_features _)).
Qed.

Lemma missing_weight_raises_witness :
  (nrows ex_h = num_nodes ex_g ∧ (nrows ex_w_short < num_edges ex_g)%nat ∧
   forward ex_conv ex_h ex_w_short ex_g = Err DGLError_edge_rows) ∧
  (nrows ex_w = num_edges ex_g ∧
   forward ex_conv ex_h ex_w ex_g ≠ Err DGLError_edge_rows).
Proof.
  split.
  - split; [reflexivity|]. split; [vm_compute; lia|].
    apply (missing_weight_raises ex_conv ex_g ex_h ex_w_short); [reflexivity|vm_compute; lia].
  - split; [reflexivity|].
    apply (missing_weight_raises ex_conv ex_g ex_h ex_w). reflexivity.
Defined.

(** ** The combination step *)

Lemma message_length (h : Tensor) (p : nat * list Qc) (m : list Qc) :
  tensor_ok h = true → message h p = Some m → length m = ncols h.
Proof.
  intros Hok. unfold message.
  destruct (rows h !! p.1) as [hu|] eqn:Hu; simpl; [|done].
  destruct (p.2) as [|c [|c' we]]; try done.
  intros [= <-]. unfold scale. rewrite length_map. by eapply tensor_ok_lookup.
Qed.

Lemma mean_row_length (g : DGLGraph) (h w : Tensor) (v : nat) :
  contract g h w = true →
  length (mean_row (ncols h) h (edges g) (rows w) v) = ncols h.
Proof.
  intros Hc. unfold mean_row. rewrite length_map, foldl_vadd_vsum.
  apply vsum_length, Forall_fmap.
  pose proof Hc as (_ & _ & Hhok & _)%contract_inv.
  pose proof (message_edge_product g h w v Hc) as Hmsg.
  eapply Forall_impl; [exact Hmsg|].
  intros p Hp. simpl in *. by eapply message_length.
Qed.

(** C2 (functional correctness, as amended). Under the contract and with
    features of the configured width [F], [forward] returns a tensor of
    the output width whose row [v] is
    [relu(W . concat(node_features[v], neighbor_repr[v]) + b)], where [W]
    and [b] are the weight and the bias of the layer's [nn.Linear] from
    width [2F] to the output width, and [relu] is the elementwise maximum
    with 0. *)
Theorem output_is_relu_of_affine (in_feat out_feat : nat) (W : list (list Qc))
    (b : list Qc) (g : DGLGraph) (h w : Tensor) :
  contract g h w = true → ncols h = in_feat →
  ∃ n out, neighbor_repr g h w = Ok n ∧
           output (__init__ in_feat out_feat W b) g h w = Ok out ∧
           ncols out = out_feat ∧
    ∀ v, (v < num_nodes g)%nat →
      ∃ hv nv, rows h !! v = Some hv ∧ rows n !! v = Some nv ∧
               length (hv ++ nv) = (in_feat * 2)%nat ∧
               rows out !! v = Some (vrelu (affine W b (hv ++ nv))).
Proof.
  intros Hc HF.
  pose proof (neighbor_repr_closed g h w Hc) as Hn.
  destruct (neighbor_repr_aggregate g h w _ Hn) as [g' Hagg].
  pose proof Hc as (Hg & Hh & Hhok & Hw & Hw1 & Hwok)%contract_inv.
  eexists. eexists. split; [exact Hn|].
  unfold output, forward. rewrite forward_with_unfold, Hagg.
  unfold cat1, nrows. simpl. rewrite length_map, length_seq.
  rewrite decide_True by done.
  unfold Linear_call. simpl. rewrite decide_True by lia. simpl.
  split; [reflexivity|]. split; [done|].
  intros v Hv.
  destruct (lookup_lt_is_Some_2 (rows h) v) as [hv Hhv]; [unfold nrows in Hh; lia|].
  exists hv, (mean_row (ncols h) h (edges g) (rows w) v).
  split; [done|].
  assert (map (mean_row (ncols h) h (edges g) (rows w)) (seq 0 (num_nodes g)) !! v
          = Some (mean_row (ncols h) h (edges g) (rows w) v)) as Hnv.
  { by rewrite list_lookup_fmap, lookup_seq_lt. }
  split; [exact Hnv|]. split.
  - rewrite length_app, (mean_row_length g h w v Hc).
    rewrite (tensor_ok_lookup h v hv Hhok Hhv). lia.
  - unfold relu. simpl.
    rewrite !list_lookup_fmap, lookup_zip_with, Hhv. simpl. by rewrite Hnv.
Qed.

Lemma output_is_relu_of_affine_witness :
  contract ex_g ex_h ex_w = true ∧ ncols ex_h = 2%nat ∧
  ∃ n out, neighbor_repr ex_g ex_h ex_w = Ok n ∧
           output (__init__ 2 1 [[q 1 1; q 1 1; q 1 1; q (-1) 1]] [q 1 1]) ex_g ex_h ex_w
             = Ok out ∧
           ncols out = 1%nat ∧
    ∀ v, (v < num_nodes ex_g)%nat →
      ∃ hv nv, rows ex_h !! v = Some hv ∧ rows n !! v = Some nv ∧
               length (hv ++ nv) = (2 * 2)%nat ∧
               rows out !! v
                 = Some (vrelu (affine [[q 1 1; q 1 1; q 1 1; q (-1) 1]] [q 1 1] (hv ++ nv))).
Proof.
  split; [reflexivity|]. split; [reflexivity|].
  apply (output_is_relu_of_affine 2 1 _ _ ex_g ex_h ex_w); reflexivity.
Defined.

Lemma dot_zeros_l (n : nat) (x : list Qc) : dot (replicate n 0) x = 0.
Proof.
  unfold dot. revert x.
  induction n as [|n IH]; intros [|a x]; simpl; try done.
  rewrite IH. ring.
Qed.

(** C2 as stated fails: the layer of the example has bias 1; on all-zero
    features every row of the concatenation is the zero vector, [forward]
    returns 1 for node 0, and [relu(W . 0)] is not [[1]] for any matrix
    [W] whatever. *)
Lemma output_is_not_relu_of_linear :
  neighbor_repr ex_g ex_hz ex_w
    = Ok (mkTensor 2 [[q 0 1; q 0 1]; [q 0 1; q 0 1]; [q 0 1; q 0 1]]) ∧
  output ex_conv ex_g ex_hz ex_w = Ok (mkTensor 1 [[q 1 1]; [q 1 1]; [q 1 1]]) ∧
  rows ex_hz !! 0%nat = Some [q 0 1; q 0 1] ∧
  ∀ W, Some [q 1 1] ≠ Some (vrelu (matvec W ([q 0 1; q 0 1] ++ [q 0 1; q 0 1]))).
Proof.
  split; [compute_done|]. split; [compute_done|]. split; [reflexivity|].
  intros [|r W]; [done|].
  unfold matvec, vrelu. simpl map.
  change [q 0 1; q 0 1; q 0 1; q 0 1] with (replicate 4 (0 : Qc)).
  rewrite dot_zeros_l. intros [= H _].
Qed.

(** ** The user-defined message function *)

Lemma expand_same_length {A} (n : nat) (l : list A) : length l = n → expand n l = l.
Proof. intros <-. by destruct l as [|a [|a' l]]. Qed.

Lemma broadcast_dim_same (n : nat) : broadcast_dim n n = Some n.
Proof. unfold broadcast_dim. by rewrite decide_True. Qed.

Lemma index_select_in_range (t : Tensor) (idx : list nat) :
  Forall (λ i, (i < nrows t)%nat) idx →
  index_select t idx = Ok (mkTensor (ncols t) (map (λ i, default [] (rows t !! i)) idx)).
Proof.
  intros H. unfold index_select.
  rewrite (mapM_total _ (λ i, default [] (rows t !! i))); [done|].
  eapply Forall_impl; [exact H|]. intros i Hi. simpl in *.
  by destruct (lookup_lt_is_Some_2 (rows t) i Hi) as [r ->].
Qed.

Lemma graph_ok_sources (g : DGLGraph) (n : nat) :
  graph_ok g = true → n = num_nodes g → Forall (λ u, (u < n)%nat) (map fst (edges g)).
Proof.
  intros Hg ->. apply Forall_fmap, Forall_forall.
  intros [u v] [i Hi]%list_elem_of_lookup. simpl.
  by destruct (graph_ok_lookup g i u v Hg Hi).
Qed.

(** The messages [u_mul_e_udf] computes on the edge batch: one row per
    edge, the source's row of [h] times the edge's row of [w]. *)
Lemma u_mul_e_udf_messages (g : DGLGraph) (h w : Tensor) (c : nat) :
  graph_ok g = true → ndata g !! "h" = Some h → edata g !! "w" = Some w →
  nrows h = num_nodes g → nrows w = num_edges g →
  broadcast_dim (ncols h) (ncols w) = Some c →
  u_mul_e_udf (edge_batch g) =
    Ok {[ "m" := mkTensor c
            (zip_with (vmul c) (map (λ u, default [] (rows h !! u)) (map fst (edges g)))
                      (rows w)) ]}.
Proof.
  intros Hg Hh Hw Hhn Hwn Hc. unfold u_mul_e_udf, edge_batch. simpl.
  rewrite Hh, Hw. simpl.
  rewrite index_select_in_range by (by apply graph_ok_sources). simpl.
  unfold mul, nrows at 1 2. simpl. rewrite !length_map.
  unfold nrows, num_edges in Hwn. rewrite Hwn, broadcast_dim_same, Hc. simpl.
  rewrite !expand_same_length; [done| |]; [done|by rewrite !length_map].
Qed.

Lemma copy_e_mean_of_products (g : DGLGraph) (h w : Tensor) (c : nat) :
  graph_ok g = true → nrows h = num_nodes g → nrows w = num_edges g →
  broadcast_dim (ncols h) (ncols w) = Some c →
  copy_e_mean g (mkTensor c
      (zip_with (vmul c) (map (λ u, default [] (rows h !! u)) (map fst (edges g)))
                (rows w)))
  = u_mul_e_mean g h w.
Proof.
  intros Hg Hhn Hwn Hc. unfold copy_e_mean, u_mul_e_mean. rewrite Hc. simpl.
  erewrite scatter_add_ext; [done|].
  intros i u v Hi. simpl.
  destruct (graph_ok_lookup g i u v Hg Hi) as [Hu Hv].
  destruct (lookup_lt_is_Some_2 (rows h) u) as [hu Hhu]; [unfold nrows in Hhn; lia|].
  destruct (lookup_lt_is_Some_2 (rows w) i) as [wi Hwi].
  { apply lookup_lt_Some in Hi. unfold nrows, num_edges in Hwn. lia. }
  rewrite lookup_zip_with, !list_lookup_fmap, Hi, Hwi, Hhu. simpl. by rewrite Hhu.
Qed.

Lemma message_passing_udf (g : DGLGraph) (h w : Tensor) (o : string) :
  graph_ok g = true → ndata g !! "h" = Some h → edata g !! "w" = Some w →
  nrows h = num_nodes g → nrows w = num_edges g →
  returned (message_passing g (UDF u_mul_e_udf) (mean "m" o))
  = returned (message_passing g (u_mul_e "h" "w" "m") (mean "m" o)).
Proof.
  intros Hg Hh Hw Hhn Hwn. unfold message_passing.
  rewrite decide_True by done. rewrite Hh, Hw. simpl.
  destruct (broadcast_dim (ncols h) (ncols w)) as [c|] eqn:Hc.
  - rewrite (u_mul_e_udf_messages g h w c) by done. simpl.
    rewrite lookup_singleton_eq. simpl.
    by rewrite (copy_e_mean_of_products g h w c).
  - unfold u_mul_e_mean. rewrite Hc. simpl.
    unfold u_mul_e_udf, edge_batch. simpl. rewrite Hh, Hw. simpl.
    rewrite index_select_in_range by (by apply graph_ok_sources). simpl.
    unfold mul. simpl. rewrite Hc.
    by destruct (broadcast_dim (nrows _) (nrows w)).
Qed.

Lemma aggregate_unfold (mfunc : MessageFunction) (h w : Tensor) (g : DGLGraph) :
  aggregate mfunc h w g =
    if decide (nrows h = num_nodes g) then
      if decide (nrows w = num_edges g) then
        match message_passing
                (mkGraph (num_nodes g) (edges g)
                         (<["h" := h]> (ndata g)) (<["w" := w]> (edata g)))
                mfunc (mean "m" "h_neigh") with
        | inl e => inl e
        | inr (o, z) =>
            match set_n_repr o z
                    (mkGraph (num_nodes g) (edges g)
                             (<["h" := h]> (ndata g)) (<["w" := w]> (edata g))) with
            | inl e => inl e
            | inr (_, g') => get_n_repr "h_neigh" g'
            end
        end
      else Err DGLError_edge_rows
    else Err DGLError_node_rows.
Proof.
  unfold aggregate, mbind, M_bind, set_n_repr at 1.
  destruct (decide (nrows h = num_nodes g)); [|done].
  unfold set_e_repr, num_edges. simpl.
  destruct (decide (nrows w = length (edges g))); [|done].
  unfold update_all, fn.mean.
  destruct (message_passing _ mfunc _) as [err|[o z]]; done.
Qed.

Lemma aggregate_udf (g : DGLGraph) (h w : Tensor) :
  graph_ok g = true →
  returned (aggregate (UDF u_mul_e_udf) h w g)
  = returned (aggregate (fn.u_mul_e "h" "w" "m") h w g).
Proof.
  intros Hg. rewrite !aggregate_unfold. unfold fn.u_mul_e.
  destruct (decide (nrows h = num_nodes g)) as [Hh|]; [|done].
  destruct (decide (nrows w = num_edges g)) as [Hw|]; [|done].
  pose proof (message_passing_udf
    (mkGraph (num_nodes g) (edges g) (<["h" := h]> (ndata g)) (<["w" := w]> (edata g)))
    h w "h_neigh" Hg (lookup_insert_eq _ _ _) (lookup_insert_eq _ _ _) Hh Hw) as Hmp.
  destruct (message_passing _ (UDF u_mul_e_udf) _) as [e1|[o1 z1]],
           (message_passing _ (u_mul_e "h" "w" "m") _) as [e2|[o2 z2]];
    simpl in Hmp; try done.
  by injection Hmp as -> ->.
Qed.

(** ** The worked example, evaluated *)

(** Node 2 averages [1/2 * [1,0]] and [1/2 * [0,1]]; nodes 0 and 1 have
    no incoming edge. *)
Example ex_neighbor_repr :
  neighbor_repr ex_g ex_h ex_w
    = Ok (mkTensor 2 [[q 0 1; q 0 1]; [q 0 1; q 0 1]; [q 1 4; q 1 4]]).
Proof. compute_done. Qed.

Example ex_output :
  output ex_conv ex_g ex_h ex_w = Ok (mkTensor 1 [[q 2 1]; [q 2 1]; [q 1 1]]).
Proof. compute_done. Qed.

Example ex_output_udf :
  fst <$> forward_with (UDF u_mul_e_udf) ex_conv ex_h ex_w ex_g
    = Ok (mkTensor 1 [[q 2 1]; [q 2 1]; [q 1 1]]).
Proof. compute_done. Qed.

(** Wider weight rows are multiplied elementwise, a width that does not
    broadcast is refused by both message functions. *)
Example ex_broadcast_refused :
  neighbor_repr ex_g ex_h3 (mkTensor 2 [[q 1 1; q 1 1]; [q 1 1; q 1 1]])
    = Err DGLError_broadcast ∧
  fst <$> aggregate (UDF u_mul_e_udf) ex_h3
            (mkTensor 2 [[q 1 1; q 1 1]; [q 1 1; q 1 1]]) ex_g
    = Err RuntimeError_broadcast.
Proof. split; compute_done. Qed.

(** Inside the scope the graph of the example carries the temporaries. *)
Example ex_scope_contents :
  (λ r, (ndata r.2 !! "h", ndata r.2 !! "h_neigh", edata r.2 !! "w"))
    <$> aggregate (fn.u_mul_e "h" "w" "m") ex_h ex_w ex_g_fields
  = Ok (Some ex_h,
        Some (mkTensor 2 [[q 0 1; q 0 1]; [q 0 1; q 0 1]; [q 1 4; q 1 4]]),
        Some ex_w).
Proof. compute_done. Qed.

(** ** Outcomes of [forward] on a well-formed graph *)

(** [forward] in closed form once the row counts match and the feature
    shapes broadcast. *)
Lemma forward_closed (self : GraphConvWithEdgeWeight) (g : DGLGraph) (h w : Tensor)
    (c : nat) :
  graph_ok g = true → nrows h = num_nodes g → nrows w = num_edges g →
  broadcast_dim (ncols h) (ncols w) = Some c →
  forward self h w g =
    if decide ((ncols h + c)%nat = in_features (linear self)) then
      Ok (relu (mkTensor (out_features (linear self))
                  (map (affine (weight (linear self)) (bias (linear self)))
                       (zip_with app (rows h)
                          (map (mean_row c h (edges g) (rows w))
                               (seq 0 (num_nodes g)))))), g)
    else Err RuntimeError_matmul.
Proof.
  intros Hg Hh Hw Hc. unfold forward.
  rewrite forward_with_unfold, aggregate_builtin.
  rewrite !decide_True by done.
  rewrite (u_mul_e_mean_closed g h w c) by done.
  unfold cat1, nrows. simpl. rewrite length_map, length_seq.
  rewrite decide_True by done.
  unfold Linear_call. simpl.
  destruct (decide ((ncols h + c)%nat = in_features (linear self))); [|done].
  by destruct g.
Qed.

Lemma relu1_nonneg (x : Qc) : 0 ≤ relu1 x.
Proof.
  unfold relu1. destruct (Qclt_le_dec 0 x) as [H|H].
  - by apply Qclt_le_weak.
  - apply Qcle_refl.
Qed.

Lemma forward_returns_inv (self : GraphConvWithEdgeWeight) (g g' : DGLGraph)
    (h w out : Tensor) :
  forward self h w g = Ok (out, g') →
  ∃ z, u_mul_e_mean g h w = Ok z ∧ nrows h = num_nodes g ∧ nrows w = num_edges g ∧
       (ncols h + ncols z)%nat = in_features (linear self) ∧
       out = relu (mkTensor (out_features (linear self))
                     (map (affine (weight (linear self)) (bias (linear self)))
                          (zip_with app (rows h) (rows z)))).
Proof.
  unfold forward. rewrite forward_with_unfold, aggregate_builtin.
  destruct (decide (nrows h = num_nodes g)) as [Hh|]; [|done].
  destruct (decide (nrows w = num_edges g)) as [Hw|]; [|done].
  destruct (u_mul_e_mean g h w) as [err|z] eqn:Hz; [done|].
  unfold cat1. destruct (decide (nrows h = nrows z)); [|done].
  unfold Linear_call. simpl.
  destruct (decide ((ncols h + ncols z)%nat = in_features (linear self))); [|done].
  intros [= <- _]. by exists z.
Qed.

Lemma affine_length (W : list (list Qc)) (b x : list Qc) (n : nat) :
  length W = n → length b = n → length (affine W b x) = n.
Proof. intros HW Hb. unfold affine. rewrite length_zip_with. lia. Qed.

(** X1 (shape of the result). Whenever [forward] returns, the result has
    one row per node and as many columns as the layer has output
    features; if the layer's parameters have the shapes [nn.Linear] gives
    them, every row has that width. *)
Theorem forward_output_shape (self : GraphConvWithEdgeWeight) (g g' : DGLGraph)
    (h w out : Tensor) :
  forward self h w g = Ok (out, g') →
  nrows out = num_nodes g ∧ ncols out = out_features (linear self) ∧
  (Linear_ok (linear self) = true → tensor_ok out = true).
Proof.
  intros (z & Hz & Hh & Hw & Hin & ->)%forward_returns_inv.
  apply u_mul_e_mean_nrows in Hz.
  split; [|split].
  - unfold relu, nrows in *. simpl.
    rewrite !length_map, length_zip_with. lia.
  - done.
  - unfold Linear_ok. rewrite !andb_true_iff, !Nat.eqb_eq.
    intros [[HW Hb] _]. unfold tensor_ok, relu. simpl.
    apply forallb_forall. intros r Hr. apply Nat.eqb_eq.
    apply in_map_iff in Hr as (y & <- & Hy).
    apply in_map_iff in Hy as (x & <- & _).
    unfold vrelu. rewrite length_map. by apply affine_length.
Qed.

Lemma forward_output_shape_witness :
  forward ex_conv ex_h ex_w ex_g
    = Ok (mkTensor 1 [[q 2 1]; [q 2 1]; [q 1 1]], ex_g) ∧
  nrows (mkTensor 1 [[q 2 1]; [q 2 1]; [q 1 1]]) = num_nodes ex_g ∧
  ncols (mkTensor 1 [[q 2 1]; [q 2 1]; [q 1 1]]) = out_features (linear ex_conv) ∧
  (Linear_ok (linear ex_conv) = true →
   tensor_ok (mkTensor 1 [[q 2 1]; [q 2 1]; [q 1 1]]) = true).
Proof.
  split; [reflexivity|].
  apply (forward_output_shape ex_conv ex_g ex_g ex_h ex_w). reflexivity.
Defined.

(** X2 (sign of the result). Whenever [forward] returns, no entry of the
    result is negative. *)
Theorem forward_output_nonneg (self : GraphConvWithEdgeWeight) (g g' : DGLGraph)
    (h w out : Tensor) :
  forward self h w g = Ok (out, g') →
  Forall (Forall (λ x, 0 ≤ x)) (rows out).
Proof.
  intros (z & _ & _ & _ & _ & ->)%forward_returns_inv.
  unfold relu. simpl. apply Forall_forall. intros r Hr.
  apply list_elem_of_In, in_map_iff in Hr as (y & <- & _).
  unfold vrelu. apply Forall_forall. intros x Hx.
  apply list_elem_of_In, in_map_iff in Hx as (a & <- & _).
  apply relu1_nonneg.
Qed.

Lemma forward_output_nonneg_witness :
  forward ex_conv ex_h ex_w ex_g
    = Ok (mkTensor 1 [[q 2 1]; [q 2 1]; [q 1 1]], ex_g) ∧
  Forall (Forall (λ x, 0 ≤ x)) (rows (mkTensor 1 [[q 2 1]; [q 2 1]; [q 1 1]])).
Proof.
  split; [reflexivity|].
  apply (forward_output_nonneg ex_conv ex_g ex_g ex_h ex_w). reflexivity.
Defined.

(** X3 (error behaviour). Node features that do not have one row per
    node make [forward] raise the row-count error of [g.ndata], whatever
    the weights and the layer are: it is the first check the call runs
    into. *)
Theorem node_rows_mismatch_raises (self : GraphConvWithEdgeWeight) (g : DGLGraph)
    (h w : Tensor) :
  nrows h ≠ num_nodes g → forward self h w g = Err DGLError_node_rows.
Proof.
  intros Hh. unfold forward. rewrite forward_with_unfold.
  unfold aggregate, mbind, M_bind, set_n_repr at 1.
  by rewrite decide_False.
Qed.

Lemma node_rows_mismatch_raises_witness :
  nrows ex_h_short ≠ num_nodes ex_g ∧
  forward ex_conv ex_h_short ex_w_short ex_g = Err DGLError_node_rows.
Proof.
  split; [vm_compute; lia|].
  apply (node_rows_mismatch_raises ex_conv ex_g ex_h_short ex_w_short).
  vm_compute. lia.
Defined.

Lemma broadcast_dim_None (a b : nat) :
  broadcast_dim a b = None ↔ a ≠ b ∧ a ≠ 1%nat ∧ b ≠ 1%nat.
Proof.
  unfold broadcast_dim. repeat case_decide; split; try done; intros (? & ? & ?); done.
Qed.

(** X4 (error behaviour). With the right row counts, weight rows that
    are neither scalars nor as wide as the features (which themselves are
    wider than 1) make [forward] raise DGL's broadcast error. *)
Theorem weights_not_broadcastable_raises (self : GraphConvWithEdgeWeight)
    (g : DGLGraph) (h w : Tensor) :
  nrows h = num_nodes g → nrows w = num_edges g →
  ncols w ≠ ncols h → ncols w ≠ 1%nat → ncols h ≠ 1%nat →
  forward self h w g = Err DGLError_broadcast.
Proof.
  intros Hh Hw H1 H2 H3. unfold forward.
  rewrite forward_with_unfold, aggregate_builtin.
  rewrite !decide_True by done.
  unfold u_mul_e_mean.
  assert (broadcast_dim (ncols h) (ncols w) = None) as ->; [|done].
  apply broadcast_dim_None. auto.
Qed.

Lemma weights_not_broadcastable_raises_witness :
  nrows ex_h3 = num_nodes ex_g ∧ nrows ex_w2 = num_edges ex_g ∧
  ncols ex_w2 ≠ ncols ex_h3 ∧ ncols ex_w2 ≠ 1%nat ∧ ncols ex_h3 ≠ 1%nat ∧
  forward ex_conv ex_h3 ex_w2 ex_g = Err DGLError_broadcast.
Proof.
  repeat (split; [vm_compute; first [reflexivity | lia]|]).
  apply (weights_not_broadcastable_raises ex_conv ex_g ex_h3 ex_w2);
    vm_compute; first [reflexivity | lia].
Defined.

Lemma u_mul_e_mean_ncols (g : DGLGraph) (x y z : Tensor) :
  u_mul_e_mean g x y = Ok z → broadcast_dim (ncols x) (ncols y) = Some (ncols z).
Proof.
  unfold u_mul_e_mean.
  destruct (broadcast_dim (ncols x) (ncols y)) as [c|]; simpl; [|done].
  destruct (scatter_add _ _ _ _) as [err|r]; simpl; [done|].
  by intros [= <-].
Qed.

(** ** More on the aggregation *)

Lemma neighbor_repr_closed_broadcast (g : DGLGraph) (h w : Tensor) (c : nat) :
  graph_ok g = true → nrows h = num_nodes g → nrows w = num_edges g →
  broadcast_dim (ncols h) (ncols w) = Some c →
  neighbor_repr g h w =
    Ok (mkTensor c (map (mean_row c h (edges g) (rows w)) (seq 0 (num_nodes g)))).
Proof.
  intros Hg Hh Hw Hc. unfold neighbor_repr. rewrite aggregate_builtin.
  rewrite !decide_True by done.
  by rewrite (u_mul_e_mean_closed g h w c).
Qed.

Lemma product_message_edge_product (g : DGLGraph) (h w : Tensor) (v : nat) :
  graph_ok g = true → nrows h = num_nodes g → tensor_ok h = true →
  ncols w = ncols h → tensor_ok w = true →
  Forall (λ p, product_message h p = Some (edge_product (ncols h) h p))
         (incoming (edges g) (rows w) v).
Proof.
  intros Hg Hh Hhok Hwc Hwok.
  apply Forall_forall. intros [u we] (i & Hi & Hwe)%incoming_elem.
  destruct (graph_ok_lookup g i u v Hg Hi) as [Hu _].
  destruct (lookup_lt_is_Some_2 (rows h) u) as [hu Hhu]; [unfold nrows in Hh; lia|].
  unfold product_message, edge_product, vmul. simpl. rewrite Hhu. simpl.
  rewrite !expand_same_length; [done| |].
  - rewrite <- Hwc. by eapply tensor_ok_lookup.
  - by eapply tensor_ok_lookup.
Qed.



Lemma mean_row_isolated (c : nat) (x : Tensor) (es : list (nat * nat))
    (ws : list (list Qc)) (v : nat) :
  length ws = length es → length (filter (λ e, e.2 = v) es) = 0%nat →
  mean_row c x es ws v = replicate c 0.
Proof.
  intros Hlen Hk. unfold mean_row.
  assert (incoming es ws v = []) as ->.
  { apply length_zero_iff_nil. by rewrite incoming_length. }
  simpl. rewrite Hk. simpl.
  induction c as [|c IH]; simpl; [done|].
  by rewrite IH, Qcdiv_0_l.
Qed.

Lemma dot_app_zeros (n : nat) (x y : list Qc) :
  dot (x ++ replicate n 0) y = dot x (take (length x) y).
Proof.
  revert y. induction x as [|a x IH]; intros y; simpl.
  - rewrite dot_zeros_l. by rewrite take_0.
  - destruct y as [|b y]; simpl; [done|].
    unfold dot in *. simpl. by rewrite IH.
Qed.

Lemma affine_app_zeros (n : nat) (W : list (list Qc)) (b x : list Qc) :
  affine W b (x ++ replicate n 0) = affine (map (take (length x)) W) b x.
Proof.
  unfold affine. revert b.
  induction W as [|r W IH]; intros [|b0 b]; simpl; try done.
  by rewrite IH, dot_app_zeros.
Qed.

(** X8 (isolated nodes). Under the contract and with features of the
    configured width [F], the output row of a node without incoming edges
    is [relu(W_self . h[v] + b)], where [W_self] consists of the first [F]
    columns of the layer's weight: it depends on the node's own features
    only. *)
Theorem isolated_node_output (in_feat out_feat : nat) (W : list (list Qc))
    (b : list Qc) (g : DGLGraph) (h w : Tensor) (v : nat) :
  contract g h w = true → ncols h = in_feat →
  (v < num_nodes g)%nat → in_degree g v = 0%nat →
  ∃ out hv, output (__init__ in_feat out_feat W b) g h w = Ok out ∧
            rows h !! v = Some hv ∧
            rows out !! v = Some (vrelu (affine (map (take in_feat) W) b hv)).
Proof.
  intros Hc HF Hv Hk.
  pose proof Hc as (Hg & Hh & Hhok & Hw & Hw1 & Hwok)%contract_inv.
  destruct (lookup_lt_is_Some_2 (rows h) v) as [hv Hhv]; [unfold nrows in Hh; lia|].
  unfold output.
  rewrite (forward_closed _ g h w (ncols h));
    [|done|done|done|rewrite Hw1; apply broadcast_dim_1_r].
  simpl. rewrite decide_True by lia. simpl.
  eexists. exists hv. split; [reflexivity|]. split; [done|].
  unfold relu. simpl.
  rewrite !list_lookup_fmap, lookup_zip_with, Hhv. simpl.
  rewrite list_lookup_fmap, lookup_seq_lt by done. simpl.
  rewrite mean_row_isolated by done.
  rewrite affine_app_zeros.
  by rewrite (tensor_ok_lookup h v hv Hhok Hhv), HF.
Qed.

Lemma isolated_node_output_witness :
  contract ex_g ex_h ex_w = true ∧ ncols ex_h = 2%nat ∧
  (0 < num_nodes ex_g)%nat ∧ in_degree ex_g 0 = 0%nat ∧
  ∃ out hv,
    output (__init__ 2 1 [[q 1 1; q 1 1; q 1 1; q (-1) 1]] [q 1 1]) ex_g ex_h ex_w
      = Ok out ∧
    rows ex_h !! 0%nat = Some hv ∧
    rows out !! 0%nat
      = Some (vrelu (affine (map (take 2) [[q 1 1; q 1 1; q 1 1; q (-1) 1]]) [q 1 1] hv)).
Proof.
  split; [reflexivity|]. split; [reflexivity|].
  split; [vm_compute; lia|]. split; [reflexivity|].
  apply (isolated_node_output 2 1 _ _ ex_g ex_h ex_w 0);
    [reflexivity|reflexivity|vm_compute; lia|reflexivity].
Defined.

Lemma mean_row_ext (c : nat) (x x' : Tensor) (es : list (nat * nat))
    (ws : list (list Qc)) (v : nat) :
  (∀ i u, es !! i = Some (u, v) → rows x !! u = rows x' !! u) →
  mean_row c x es ws v = mean_row c x' es ws v.
Proof.
  intros H. unfold mean_row. do 2 f_equal.
  apply map_ext_in. intros [u we] Hin.
  apply list_elem_of_In, incoming_elem in Hin as (i & Hi & _).
  unfold edge_product. simpl. by rewrite (H i u Hi).
Qed.

(** X9 (one-hop locality). The output row of a node [v] depends on the
    node features only through the row of [v] itself and the rows of the
    sources of the edges into [v]: two feature tensors of the same shape
    that agree on these rows give the same row [v], or the same
    exception. *)
Theorem output_row_is_local (self : GraphConvWithEdgeWeight) (g : DGLGraph)
    (h h' w : Tensor) (v : nat) :
  graph_ok g = true →
  nrows h = nrows h' → ncols h = ncols h' →
  rows h !! v = rows h' !! v →
  (∀ i u, edges g !! i = Some (u, v) → rows h !! u = rows h' !! u) →
  (λ t, rows t !! v) <$> output self g h w
  = (λ t, rows t !! v) <$> output self g h' w.
Proof.
  intros Hg Hn Hc Hv Hin. unfold output.
  destruct (decide (nrows h = num_nodes g)) as [Hh|Hh].
  - assert (nrows h' = num_nodes g) as Hh' by congruence.
    destruct (decide (nrows w = num_edges g)) as [Hw|Hw].
    + destruct (broadcast_dim (ncols h) (ncols w)) as [c|] eqn:Hbc.
      * rewrite (forward_closed self g h w c) by done.
        rewrite (forward_closed self g h' w c) by congruence.
        rewrite <- Hc. case_decide; [|done]. simpl. f_equal.
        rewrite !list_lookup_fmap, !lookup_zip_with, <- Hv.
        destruct (rows h !! v) as [hv|]; simpl; [|done].
        rewrite !list_lookup_fmap.
        destruct (seq 0 (num_nodes g) !! v) as [j|] eqn:Hj; simpl; [|done].
        apply lookup_seq in Hj as [-> _]. simpl.
        by rewrite (mean_row_ext c h h' (edges g) (rows w) v Hin).
      * unfold forward. rewrite !forward_with_unfold, !aggregate_builtin.
        rewrite !decide_True by done. unfold u_mul_e_mean.
        rewrite <- Hc, Hbc. done.
    + unfold forward. rewrite !forward_with_unfold, !aggregate_builtin.
      rewrite !(decide_True _ _ Hh), !(decide_True _ _ Hh').
      by rewrite !decide_False.
  - assert (nrows h' ≠ num_nodes g) as Hh' by congruence.
    unfold forward. rewrite !forward_with_unfold, !aggregate_builtin.
    by rewrite !decide_False.
Qed.

Lemma output_row_is_local_witness :
  graph_ok ex_g = true ∧ nrows ex_h = nrows ex_h' ∧ ncols ex_h = ncols ex_h' ∧
  rows ex_h !! 0%nat = rows ex_h' !! 0%nat ∧
  (λ t, rows t !! 0%nat) <$> output ex_conv ex_g ex_h ex_w
  = (λ t, rows t !! 0%nat) <$> output ex_conv ex_g ex_h' ex_w.
Proof.
  do 4 (split; [reflexivity|]).
  apply (output_row_is_local ex_conv ex_g ex_h ex_h' ex_w 0); try reflexivity.
  intros [|[|i]] u Hi; simpl in Hi; done.
Defined.

(** ** More on [u_mul_e_udf] *)

(** X10 (missing fields). [u_mul_e_udf] reads the node field ['h'] first
    and the edge field ['w'] second: on a graph without a node field
    ['h'] it raises [KeyError('h')]; on a graph that has ['h'] (one row
    per node) but no edge field ['w'] it raises [KeyError('w')]. *)
Theorem u_mul_e_udf_missing_field (g : DGLGraph) :
  (ndata g !! "h" = None → u_mul_e_udf (edge_batch g) = Err (KeyError "h")) ∧
  (∀ h, graph_ok g = true → ndata g !! "h" = Some h → nrows h = num_nodes g →
        edata g !! "w" = None → u_mul_e_udf (edge_batch g) = Err (KeyError "w")).
Proof.
  unfold u_mul_e_udf, edge_batch. simpl. split.
  - by intros ->.
  - intros h Hg -> Hh ->. simpl.
    by rewrite index_select_in_range by (by apply graph_ok_sources).
Qed.

Lemma u_mul_e_udf_missing_field_witness :
  (ndata ex_g !! "h" = None ∧
   u_mul_e_udf (edge_batch ex_g) = Err (KeyError "h")) ∧
  (graph_ok (mkGraph 3 [(0, 2); (1, 2)]%nat {[ "h" := ex_h ]} ∅) = true ∧
   u_mul_e_udf (edge_batch (mkGraph 3 [(0, 2); (1, 2)]%nat {[ "h" := ex_h ]} ∅))
     = Err (KeyError "w")).
Proof.
  split.
  - split; [reflexivity|].
    apply (u_mul_e_udf_missing_field ex_g). reflexivity.
  - split; [reflexivity|].
    apply (u_mul_e_udf_missing_field
             (mkGraph 3 [(0, 2); (1, 2)]%nat {[ "h" := ex_h ]} ∅) ) with (h := ex_h);
      reflexivity.
Defined.

(** X11 (the messages of [u_mul_e_udf]). On a graph that carries the
    fields ['h'] and ['w'] and meets the contract, [u_mul_e_udf] returns a
    dictionary with the single field ['m']; its tensor has one row per
    edge and the width of the features, and the row of an edge [u -> v] is
    [h[u]] scaled by the edge's weight. *)
Theorem u_mul_e_udf_computes_messages (g : DGLGraph) (h w : Tensor) :
  contract g h w = true → ndata g !! "h" = Some h → edata g !! "w" = Some w →
  ∃ m, u_mul_e_udf (edge_batch g) = Ok {[ "m" := m ]} ∧
       nrows m = num_edges g ∧ ncols m = ncols h ∧
       ∀ i u v, edges g !! i = Some (u, v) →
         ∃ we msg, rows w !! i = Some we ∧ message h (u, we) = Some msg ∧
                   rows m !! i = Some msg.
Proof.
  intros Hc Hh Hw.
  pose proof Hc as (Hg & Hhn & Hhok & Hwn & Hw1 & Hwok)%contract_inv.
  eexists. split.
  { apply (u_mul_e_udf_messages g h w (ncols h)); try done.
    rewrite Hw1. apply broadcast_dim_1_r. }
  unfold nrows, num_edges in *. simpl.
  split; [|split; [done|]].
  - rewrite length_zip_with, !length_map. lia.
  - intros i u v Hi.
    destruct (lookup_lt_is_Some_2 (rows w) i) as [we Hwe].
    { apply lookup_lt_Some in Hi. lia. }
    pose proof (message_edge_product g h w v Hc) as Hmsg.
    assert ((u, we) ∈ incoming (edges g) (rows w) v) as Hin.
    { unfold incoming. apply list_elem_of_omap.
      exists ((u, v), we). split.
      - apply list_elem_of_lookup. exists i.
        apply lookup_zip_with_Some. by exists (u, v), we.
      - simpl. by rewrite decide_True. }
    rewrite Forall_forall in Hmsg. specialize (Hmsg _ Hin).
    exists we, (edge_product (ncols h) h (u, we)).
    split; [done|]. split; [done|].
    rewrite lookup_zip_with, !list_lookup_fmap, Hi, Hwe. done.
Qed.

Lemma u_mul_e_udf_computes_messages_witness :
  contract ex_g_scoped ex_h ex_w = true ∧
  ∃ m, u_mul_e_udf (edge_batch ex_g_scoped) = Ok {[ "m" := m ]} ∧
       nrows m = num_edges ex_g_scoped ∧ ncols m = ncols ex_h ∧
       ∀ i u v, edges ex_g_scoped !! i = Some (u, v) →
         ∃ we msg, rows ex_w !! i = Some we ∧ message ex_h (u, we) = Some msg ∧
                   rows m !! i = Some msg.
Proof.
  split; [reflexivity|].
  apply (u_mul_e_udf_computes_messages ex_g_scoped ex_h ex_w); reflexivity.
Defined.

(** ** Layers in sequence *)

Lemma relu_affine_tensor_ok (L : Linear) (xs : list (list Qc)) :
  Linear_ok L = true →
  tensor_ok (relu (mkTensor (out_features L) (map (affine (weight L) (bias L)) xs)))
    = true.
Proof.
  unfold Linear_ok. rewrite !andb_true_iff, !Nat.eqb_eq.
  intros [[HW Hb] _]. unfold tensor_ok, relu. simpl.
  apply forallb_forall. intros r Hr. apply Nat.eqb_eq.
  apply in_map_iff in Hr as (y & <- & Hy).
  apply in_map_iff in Hy as (x & <- & _).
  unfold vrelu. rewrite length_map. by apply affine_length.
Qed.

(** What a layer returns under the contract is again a feature tensor
    that meets the contract, of the layer's output width. *)
Lemma forward_keeps_contract (in_feat out_feat : nat) (W : list (list Qc))
    (b : list Qc) (g : DGLGraph) (h w : Tensor) :
  contract g h w = true → ncols h = in_feat →
  Linear_ok (mkLinear (in_feat * 2) out_feat W b) = true →
  ∃ out, forward (__init__ in_feat out_feat W b) h w g = Ok (out, g) ∧
         ncols out = out_feat ∧ contract g out w = true.
Proof.
  intros Hc HF HL.
  pose proof Hc as (Hg & Hh & Hhok & Hw & Hw1 & Hwok)%contract_inv.
  rewrite (forward_closed _ g h w (ncols h));
    [|done|done|done|rewrite Hw1; apply broadcast_dim_1_r].
  simpl. rewrite decide_True by lia.
  eexists. split; [reflexivity|]. split; [done|].
  unfold contract. rewrite !andb_true_iff, !Nat.eqb_eq.
  repeat split; try done.
  - unfold nrows, relu in *. simpl.
    rewrite !length_map, length_zip_with, length_map, length_seq. lia.
  - by apply (relu_affine_tensor_ok (mkLinear (in_feat * 2) out_feat W b)).
Qed.

(** X12 (stacking). Two layers can be applied in sequence on the same
    graph and weights: under the contract, with features of the width the
    first layer was created for, a first layer whose parameters have the
    shapes [nn.Linear] gives them, and a second layer created for the
    output width of the first, the second call returns a tensor with one
    row per node and the output width of the second layer, and the graph
    object is as before. *)
Theorem two_layers_compose (n_in n_hid n_out : nat) (W1 W2 : list (list Qc))
    (b1 b2 : list Qc) (g : DGLGraph) (h w : Tensor) :
  contract g h w = true → ncols h = n_in →
  Linear_ok (mkLinear (n_in * 2) n_hid W1 b1) = true →
  ∃ out,
    (h1 ← forward (__init__ n_in n_hid W1 b1) h w;
     forward (__init__ n_hid n_out W2 b2) h1 w) g = Ok (out, g) ∧
    nrows out = num_nodes g ∧ ncols out = n_out.
Proof.
  intros Hc HF HL.
  destruct (forward_keeps_contract n_in n_hid W1 b1 g h w Hc HF HL)
    as (h1 & Hh1 & Hc1 & Hk1).
  pose proof Hk1 as (Hg & Hh & Hhok & Hw & Hw1 & Hwok)%contract_inv.
  unfold mbind, M_bind. rewrite Hh1.
  rewrite (forward_closed _ g h1 w (ncols h1));
    [|done|done|done|rewrite Hw1; apply broadcast_dim_1_r].
  simpl. rewrite decide_True by lia.
  eexists. split; [reflexivity|]. split; [|done].
  unfold nrows, relu in *. simpl.
  rewrite !length_map, length_zip_with, length_map, length_seq. lia.
Qed.

Lemma two_layers_compose_witness :
  contract ex_g ex_h ex_w = true ∧ ncols ex_h = 2%nat ∧
  Linear_ok (mkLinear (2 * 2) 1 [[q 1 1; q 1 1; q 1 1; q (-1) 1]] [q 1 1]) = true ∧
  ∃ out,
    (h1 ← forward (__init__ 2 1 [[q 1 1; q 1 1; q 1 1; q (-1) 1]] [q 1 1]) ex_h ex_w;
     forward (__init__ 1 2 [[q 1 1; q 2 1]; [q 0 1; q 1 1]] [q 0 1; q 0 1]) h1 ex_w) ex_g
      = Ok (out, ex_g) ∧
    nrows out = num_nodes ex_g ∧ ncols out = 2%nat.
Proof.
  do 3 (split; [reflexivity|]).
  apply (two_layers_compose 2 1 2 _ _ _ _ ex_g ex_h ex_w); reflexivity.
Defined.

(** ** Unit weights *)

Lemma scale_1 (x : list Qc) : scale 1 x = x.
Proof.
  unfold scale. induction x as [|a x IH]; simpl; [done|].
  rewrite IH. f_equal. ring.
Qed.



(** ** Labelled nodes and test nodes (notebook 2_gnn) *)

Lemma np_unique_Permutation (l : list nat) : Gnn.np_unique l ≡ₚ remove_dups l.
Proof. unfold Gnn.np_unique. apply merge_sort_Permutation. Qed.

Lemma np_unique_elem (l : list nat) (i : nat) : i ∈ Gnn.np_unique l ↔ i ∈ l.
Proof. by rewrite np_unique_Permutation, elem_of_remove_dups. Qed.

Lemma np_unique_NoDup (l : list nat) : NoDup (Gnn.np_unique l).
Proof. rewrite np_unique_Permutation. apply NoDup_remove_dups. Qed.

Lemma StronglySorted_le_lt (l : list nat) :
  StronglySorted Nat.le l → NoDup l → StronglySorted lt l.
Proof.
  induction 1 as [|x l Hl IH Hx]; intros Hnd; [constructor|].
  apply NoDup_cons in Hnd as [Hxl Hnd].
  constructor; [by apply IH|].
  apply Forall_forall. intros y Hy.
  rewrite Forall_forall in Hx. specialize (Hx y Hy).
  assert (x ≠ y) by (intros ->; done). unfold Nat.le in Hx. lia.
Qed.

Lemma np_unique_sorted (l : list nat) : StronglySorted lt (Gnn.np_unique l).
Proof.
  apply StronglySorted_le_lt; [|apply np_unique_NoDup].
  unfold Gnn.np_unique. apply StronglySorted_merge_sort; unfold Nat.le.
  - intros x y z. lia.
  - intros x y. lia.
Qed.

(** X15 (the labelled nodes). Whatever sample is drawn, [train_nodes] is
    strictly increasing and consists of node 0, node 33 and the sampled
    nodes; for a sample of three distinct nodes it has between three and
    five entries. *)
Theorem train_nodes_spec (s : list nat) :
  StronglySorted lt (Gnn.train_nodes s) ∧
  (∀ i, i ∈ Gnn.train_nodes s ↔ i = 0%nat ∨ i = 33%nat ∨ i ∈ s) ∧
  (NoDup s → length s = 3%nat →
   (3 ≤ length (Gnn.train_nodes s) ≤ 5)%nat).
Proof.
  unfold Gnn.train_nodes. split; [apply np_unique_sorted|]. split.
  - intros i. rewrite np_unique_elem. set_solver.
  - intros Hnd Hlen. split.
    + rewrite <- Hlen. apply submseteq_length, NoDup_submseteq; [done|].
      intros x Hx. apply np_unique_elem. set_solver.
    + transitivity (length ([0; 33]%nat ++ s)); [|rewrite length_app; simpl; lia].
      apply submseteq_length, NoDup_submseteq; [apply np_unique_NoDup|].
      intros x Hx. by apply np_unique_elem.
Qed.

Lemma train_nodes_spec_witness :
  StronglySorted lt (Gnn.train_nodes [24; 33; 2]%nat) ∧
  (∀ i, i ∈ Gnn.train_nodes [24; 33; 2]%nat
        ↔ i = 0%nat ∨ i = 33%nat ∨ i ∈ [24; 33; 2]%nat) ∧
  (NoDup [24; 33; 2]%nat → length [24; 33; 2]%nat = 3%nat →
   (3 ≤ length (Gnn.train_nodes [24; 33; 2]%nat) ≤ 5)%nat).
Proof. apply (train_nodes_spec [24; 33; 2]%nat). Defined.

Lemma omap_mask_diag (obj l : list nat) :
  omap (λ p : nat * nat, if decide (p.1 ∈ obj) then None else Some p.2) (zip l l)
  = filter (λ i, i ∉ obj) l.
Proof.
  induction l as [|x l IH]; [done|].
  rewrite filter_cons. simpl. fold (zip l l).
  destruct (decide (x ∈ obj)) as [Hx|Hx].
  - rewrite decide_False by (intros H; by apply H). exact IH.
  - rewrite decide_True by done. f_equal. exact IH.
Qed.

Lemma np_delete_arange (n : nat) (obj : list nat) :
  Forall (λ i, (i < n)%nat) obj →
  Gnn.np_delete (Gnn.np_arange n) obj = Ok (filter (λ i, i ∉ obj) (seq 0 n)).
Proof.
  intros H. unfold Gnn.np_delete, Gnn.np_arange. rewrite length_seq.
  assert (forallb (λ i, i <? n)%nat obj = true) as ->.
  { apply forallb_forall. intros i Hi. apply Nat.ltb_lt.
    rewrite Forall_forall in H. by apply H, list_elem_of_In. }
  by rewrite omap_mask_diag.
Qed.

Lemma train_nodes_in_range (n : nat) (s : list nat) :
  (33 < n)%nat → Forall (λ i, (i < n)%nat) s →
  Forall (λ i, (i < n)%nat) (Gnn.train_nodes s).
Proof.
  intros Hn Hs. apply Forall_forall. intros i Hi.
  unfold Gnn.train_nodes in Hi. rewrite np_unique_elem in Hi.
  rewrite Forall_forall in Hs.
  apply elem_of_app in Hi as [Hi|Hi]; [|by apply Hs].
  apply elem_of_cons in Hi as [->|Hi]; [lia|].
  apply elem_of_cons in Hi as [->|Hi]; [lia|].
  by apply not_elem_of_nil in Hi.
Qed.

Lemma complement_length (n : nat) (obj : list nat) :
  NoDup obj → Forall (λ i, (i < n)%nat) obj →
  (length (filter (λ i, i ∉ obj) (seq 0 n)) + length obj = n)%nat.
Proof.
  intros Hnd Hr.
  pose proof (filter_app_complement (λ i, i ∈ obj) (seq 0 n)) as Hp.
  apply Permutation_length in Hp. rewrite length_app, length_seq in Hp.
  assert (filter (λ i, i ∈ obj) (seq 0 n) ≡ₚ obj) as Hq.
  { apply NoDup_Permutation; [apply NoDup_filter, NoDup_seq|done|].
    intros x. rewrite list_elem_of_filter, elem_of_seq.
    rewrite Forall_forall in Hr. split; [tauto|].
    intros Hx. specialize (Hr x Hx). split; [done|lia]. }
  rewrite (Permutation_length Hq) in Hp. lia.
Qed.

Lemma StronglySorted_lt_filter (P : nat → Prop) `{∀ x, Decision (P x)} (l : list nat) :
  StronglySorted lt l → StronglySorted lt (filter P l).
Proof.
  induction 1 as [|x l Hl IH Hx]; [constructor|].
  rewrite filter_cons. destruct (decide (P x)); [|done].
  constructor; [done|].
  apply Forall_forall. intros y [_ Hy]%list_elem_of_filter.
  rewrite Forall_forall in Hx. by apply Hx.
Qed.

Lemma StronglySorted_lt_seq (j n : nat) : StronglySorted lt (seq j n).
Proof.
  revert j. induction n as [|n IH]; intros j; simpl; [constructor|].
  constructor; [apply IH|].
  apply Forall_forall. intros y [Hy _]%elem_of_seq. lia.
Qed.

(** X16 (the split). On a graph with more than 33 nodes and for a sample
    of nodes of the graph, [np.delete] does not raise and [test_nodes]
    lists, in increasing order, exactly the nodes that are not in
    [train_nodes]: the two arrays are disjoint and together have as many
    entries as the graph has nodes. *)
Theorem test_nodes_complement (n : nat) (s : list nat) :
  (33 < n)%nat → Forall (λ i, (i < n)%nat) s →
  ∃ t, Gnn.test_nodes n (Gnn.train_nodes s) = Ok t ∧
       StronglySorted lt t ∧
       (∀ i, i ∈ t ↔ (i < n)%nat ∧ i ∉ Gnn.train_nodes s) ∧
       (length t + length (Gnn.train_nodes s) = n)%nat.
Proof.
  intros Hn Hs.
  pose proof (train_nodes_in_range n s Hn Hs) as Hr.
  exists (filter (λ i, i ∉ Gnn.train_nodes s) (seq 0 n)).
  split; [by apply np_delete_arange|]. split; [|split].
  - apply StronglySorted_lt_filter, StronglySorted_lt_seq.
  - intros i. rewrite list_elem_of_filter, elem_of_seq.
    split; intros [H1 H2]; (split; [first [done|lia]|first [done|lia]]).
  - apply complement_length; [|done]. apply np_unique_NoDup.
Qed.

Lemma test_nodes_complement_witness :
  (33 < 34)%nat ∧ Forall (λ i, (i < 34)%nat) [24; 33; 2]%nat ∧
  ∃ t, Gnn.test_nodes 34 (Gnn.train_nodes [24; 33; 2]%nat) = Ok t ∧
       StronglySorted lt t ∧
       (∀ i, i ∈ t ↔ (i < 34)%nat ∧ i ∉ Gnn.train_nodes [24; 33; 2]%nat) ∧
       (length t + length (Gnn.train_nodes [24; 33; 2]%nat) = 34)%nat.
Proof.
  assert (Forall (λ i, (i < 34)%nat) [24; 33; 2]%nat) as Hs.
  { repeat constructor; lia. }
  split; [lia|]. split; [exact Hs|].
  apply (test_nodes_complement 34 [24; 33; 2]%nat); [lia|exact Hs].
Defined.

(** ** The printed accuracy (notebook 2_gnn) *)

Lemma Qc_of_nat_pos (m : nat) : (0 < m)%nat → 0 < Qc_of_nat m.
Proof.
  intros Hm. unfold Qc_of_nat. rewrite <- Z2Qc_inj_0.
  apply (proj1 (Z2Qc_inj_lt 0 (Z.of_nat m))). lia.
Qed.

Lemma Qc_ratio_mult (k m : nat) :
  (0 < m)%nat → Qc_of_nat k / Qc_of_nat m * Qc_of_nat m = Qc_of_nat k.
Proof.
  intros Hm. unfold Qcdiv. rewrite <- Qcmult_assoc, Qcmult_inv_l.
  - apply Qcmult_1_r.
  - intros H0. pose proof (Qc_of_nat_pos m Hm) as Hp. rewrite H0 in Hp.
    by apply Qclt_not_eq in Hp.
Qed.

Lemma Qc_ratio_le (k j m : nat) :
  (0 < m)%nat →
  Qc_of_nat k / Qc_of_nat m ≤ Qc_of_nat j / Qc_of_nat m ↔ (k ≤ j)%nat.
Proof.
  intros Hm.
  rewrite (Qcmult_le_mono_pos_r _ _ (Qc_of_nat m)) by (by apply Qc_of_nat_pos).
  rewrite !Qc_ratio_mult by done. unfold Qc_of_nat.
  rewrite <- Z2Qc_inj_le. lia.
Qed.

Lemma Qc_ratio_lt (k j m : nat) :
  (0 < m)%nat →
  Qc_of_nat k / Qc_of_nat m < Qc_of_nat j / Qc_of_nat m ↔ (k < j)%nat.
Proof.
  intros Hm.
  rewrite (Qcmult_lt_mono_pos_r _ _ (Qc_of_nat m)) by (by apply Qc_of_nat_pos).
  rewrite !Qc_ratio_mult by done. unfold Qc_of_nat.
  rewrite <- Z2Qc_inj_lt. lia.
Qed.

Lemma Qc_ratio_eq (k j m : nat) :
  (0 < m)%nat →
  Qc_of_nat k / Qc_of_nat m = Qc_of_nat j / Qc_of_nat m ↔ k = j.
Proof.
  intros Hm. split; [|by intros ->].
  intros H.
  assert (k ≤ j)%nat by (apply (Qc_ratio_le k j m Hm); rewrite H; apply Qcle_refl).
  assert (j ≤ k)%nat by (apply (Qc_ratio_le j k m Hm); rewrite H; apply Qcle_refl).
  lia.
Qed.

Lemma Qc_ratio_self (m : nat) : (0 < m)%nat → Qc_of_nat m / Qc_of_nat m = 1.
Proof.
  intros Hm. unfold Qcdiv. apply Qcmult_inv_r.
  intros H0. pose proof (Qc_of_nat_pos m Hm) as Hp. rewrite H0 in Hp.
  by apply Qclt_not_eq in Hp.
Qed.

Lemma Qc_ratio_0 (m : nat) : Qc_of_nat 0 / Qc_of_nat m = 0.
Proof.
  replace (Qc_of_nat 0) with (0 : Qc) by (symmetry; apply Z2Qc_inj_0).
  apply Qcdiv_0_l.
Qed.

Lemma tensor_eq_same_length (a b : list nat) :
  length a = length b → Gnn.tensor_eq a b = Ok (zip_with Nat.eqb a b).
Proof.
  intros Hl. unfold Gnn.tensor_eq. rewrite Hl, broadcast_dim_same.
  by rewrite !expand_same_length.
Qed.

Lemma take_indices_in_range {A} (d : A) (t : list A) (idx : list nat) :
  Forall (λ i, (i < length t)%nat) idx →
  Gnn.take_indices t idx = Ok (map (λ i, default d (t !! i)) idx).
Proof.
  intros H. unfold Gnn.take_indices.
  rewrite (mapM_total _ (λ i, default d (t !! i))); [done|].
  eapply Forall_impl; [exact H|]. intros i Hi. simpl in *.
  by destruct (lookup_lt_is_Some_2 t i Hi) as [r ->].
Qed.

Lemma count_true_le (l : list bool) : (Gnn.count_true l ≤ length l)%nat.
Proof. unfold Gnn.count_true. apply length_filter. Qed.

Lemma count_true_all (l : list bool) :
  Gnn.count_true l = length l ↔ Forall (λ b, b = true) l.
Proof.
  unfold Gnn.count_true. induction l as [|b l IH]; [by split|].
  rewrite filter_cons, Forall_cons.
  pose proof (length_filter (λ b, b = true) l) as Hle.
  destruct (decide (b = true)) as [->|Hb]; simpl.
  - rewrite <- IH. split; [intros H; split; [done|lia]|intros [_ H]; lia].
  - split; [lia|]. intros [H _]. done.
Qed.

Lemma accuracy_closed (pred labels test : list nat) :
  length pred = length labels → Forall (λ i, (i < length pred)%nat) test →
  Gnn.accuracy_cpu pred labels test
    = Gnn.true_div (Gnn.count_true (hits pred labels test)) (length pred) ∧
  Gnn.accuracy_gpu pred labels test
    = Gnn.true_div (Gnn.count_true (hits pred labels test)) (length test).
Proof.
  intros Hl Hr. unfold Gnn.accuracy_cpu, Gnn.accuracy_gpu.
  rewrite tensor_eq_same_length by done. simpl.
  rewrite (take_indices_in_range false).
  - done.
  - rewrite length_zip_with. eapply Forall_impl; [exact Hr|]. simpl. lia.
Qed.

Lemma hits_all (pred labels test : list nat) :
  length pred = length labels → Forall (λ i, (i < length pred)%nat) test →
  Forall (λ b, b = true) (hits pred labels test)
  ↔ ∀ i, i ∈ test → pred !! i = labels !! i.
Proof.
  intros Hl Hr. unfold hits. rewrite Forall_fmap, !Forall_forall.
  rewrite Forall_forall in Hr.
  split; intros H i Hi; specialize (H i Hi); specialize (Hr i Hi); simpl in *.
  - destruct (lookup_lt_is_Some_2 pred i Hr) as [x Hx].
    destruct (lookup_lt_is_Some_2 labels i) as [y Hy]; [lia|].
    rewrite lookup_zip_with, Hx, Hy in H. simpl in H.
    apply Nat.eqb_eq in H. by rewrite Hx, Hy, H.
  - destruct (lookup_lt_is_Some_2 pred i Hr) as [x Hx].
    rewrite lookup_zip_with, <- H, Hx. simpl. apply Nat.eqb_refl.
Qed.

Lemma train_nodes_length (s : list nat) :
  (1 ≤ length (Gnn.train_nodes s) ≤ 2 + length s)%nat.
Proof.
  unfold Gnn.train_nodes. split.
  - assert (0%nat ∈ Gnn.np_unique ([0; 33]%nat ++ s)) as H0.
    { apply np_unique_elem. set_solver. }
    destruct (Gnn.np_unique _); [by apply not_elem_of_nil in H0|simpl; lia].
  - change (2 + length s)%nat with (length ([0; 33]%nat ++ s)).
    apply submseteq_length, NoDup_submseteq; [apply np_unique_NoDup|].
    intros x Hx. by apply np_unique_elem.
Qed.

Lemma complement_in_range (n : nat) (obj : list nat) :
  Forall (λ i, (i < n)%nat) (filter (λ i, i ∉ obj) (seq 0 n)).
Proof.
  apply Forall_forall. intros i [_ Hi]%list_elem_of_filter.
  apply elem_of_seq in Hi. lia.
Qed.

(** X17 (accuracy of the CPU copy). On a graph with [n > 33] nodes, with
    one prediction and one label per node, the accuracy the CPU copy
    prints is the number of correctly predicted test nodes divided by the
    number of all nodes: it is at most [len(test_nodes) / n], strictly
    below 1, and equal to [len(test_nodes) / n] when every prediction is
    right. *)
Theorem accuracy_cpu_below_one (n : nat) (s pred labels : list nat) :
  (33 < n)%nat → Forall (λ i, (i < n)%nat) s →
  length pred = n → length labels = n →
  ∃ t a, Gnn.test_nodes n (Gnn.train_nodes s) = Ok t ∧
         Gnn.accuracy_cpu pred labels t = Ok a ∧
         a ≤ Qc_of_nat (length t) / Qc_of_nat n ∧ a < 1 ∧
         (pred = labels → a = Qc_of_nat (length t) / Qc_of_nat n).
Proof.
  intros Hn Hs Hp Hl.
  pose proof (train_nodes_in_range n s Hn Hs) as Hr.
  pose proof (complement_length n _ (np_unique_NoDup ([0; 33]%nat ++ s)) Hr) as Hlen.
  fold (Gnn.train_nodes s) in Hlen.
  pose proof (train_nodes_length s) as [Htr _].
  set (t := filter (λ i, i ∉ Gnn.train_nodes s) (seq 0 n)) in *.
  assert (Forall (λ i, (i < length pred)%nat) t) as Ht.
  { rewrite Hp. apply complement_in_range. }
  pose proof (count_true_le (hits pred labels t)) as Hc.
  assert (length (hits pred labels t) = length t) as Hh by apply length_map.
  exists t. eexists. split; [by apply np_delete_arange|].
  destruct (accuracy_closed pred labels t) as [-> _]; [congruence|done|].
  unfold Gnn.true_div. rewrite decide_False by lia.
  split; [reflexivity|]. rewrite Hp. split; [|split].
  - apply Qc_ratio_le; lia.
  - rewrite <- (Qc_ratio_self n) by lia. apply Qc_ratio_lt; lia.
  - intros Heq. apply Qc_ratio_eq; [lia|]. rewrite <- Hh.
    apply count_true_all, hits_all; [congruence|done|].
    intros i _. by rewrite Heq.
Qed.

Lemma accuracy_cpu_below_one_witness :
  (33 < 34)%nat ∧ Forall (λ i, (i < 34)%nat) [24; 33; 2]%nat ∧
  ∃ t a, Gnn.test_nodes 34 (Gnn.train_nodes [24; 33; 2]%nat) = Ok t ∧
         Gnn.accuracy_cpu (replicate 34 1%nat) (replicate 34 1%nat) t = Ok a ∧
         a ≤ Qc_of_nat (length t) / Qc_of_nat 34 ∧ a < 1 ∧
         (replicate 34 1%nat = replicate 34 1%nat →
          a = Qc_of_nat (length t) / Qc_of_nat 34).
Proof.
  assert (Forall (λ i, (i < 34)%nat) [24; 33; 2]%nat) as Hs.
  { repeat constructor; lia. }
  split; [lia|]. split; [exact Hs|].
  apply (accuracy_cpu_below_one 34 [24; 33; 2]%nat
           (replicate 34 1%nat) (replicate 34 1%nat));
    [lia|exact Hs|reflexivity|reflexivity].
Defined.

(** X18 (accuracy of the GPU copy). On a graph with [n > 33] nodes, for
    a sample of three distinct nodes and with one prediction and one
    label per node, the accuracy the GPU copy prints is the number of
    correctly predicted test nodes divided by the number of test nodes:
    it lies between 0 and 1, and it is 1 exactly when the prediction of
    every test node is right. *)
Theorem accuracy_gpu_spec (n : nat) (s pred labels : list nat) :
  (33 < n)%nat → Gnn.is_sample n 3 s →
  length pred = n → length labels = n →
  ∃ t a, Gnn.test_nodes n (Gnn.train_nodes s) = Ok t ∧
         Gnn.accuracy_gpu pred labels t = Ok a ∧
         0 ≤ a ∧ a ≤ 1 ∧
         (a = 1 ↔ ∀ i, i ∈ t → pred !! i = labels !! i).
Proof.
  intros Hn (Hs3 & _ & Hs) Hp Hl.
  pose proof (train_nodes_in_range n s Hn Hs) as Hr.
  pose proof (complement_length n _ (np_unique_NoDup ([0; 33]%nat ++ s)) Hr) as Hlen.
  fold (Gnn.train_nodes s) in Hlen.
  pose proof (train_nodes_length s) as [_ Htr].
  set (t := filter (λ i, i ∉ Gnn.train_nodes s) (seq 0 n)) in *.
  assert (Forall (λ i, (i < length pred)%nat) t) as Ht.
  { rewrite Hp. apply complement_in_range. }
  pose proof (count_true_le (hits pred labels t)) as Hc.
  assert (length (hits pred labels t) = length t) as Hh by apply length_map.
  assert (0 < length t)%nat as Hpos by lia.
  exists t. eexists. split; [by apply np_delete_arange|].
  destruct (accuracy_closed pred labels t) as [_ ->]; [congruence|done|].
  unfold Gnn.true_div. rewrite decide_False by lia.
  split; [reflexivity|]. split; [|split].
  - rewrite <- (Qc_ratio_0 (length t)). apply Qc_ratio_le; lia.
  - rewrite <- (Qc_ratio_self (length t)) by done. apply Qc_ratio_le; lia.
  - rewrite <- (Qc_ratio_self (length t)) at 1 by done.
    rewrite Qc_ratio_eq by done. rewrite <- Hh.
    rewrite count_true_all. apply hits_all; [congruence|done].
Qed.

Lemma accuracy_gpu_spec_witness :
  (33 < 34)%nat ∧ Gnn.is_sample 34 3 [24; 33; 2]%nat ∧
  ∃ t a, Gnn.test_nodes 34 (Gnn.train_nodes [24; 33; 2]%nat) = Ok t ∧
         Gnn.accuracy_gpu (replicate 34 1%nat) (replicate 34 1%nat) t = Ok a ∧
         0 ≤ a ∧ a ≤ 1 ∧
         (a = 1 ↔ ∀ i, i ∈ t → replicate 34 1%nat !! i = replicate 34 1%nat !! i).
Proof.
  assert (Gnn.is_sample 34 3 [24; 33; 2]%nat) as Hs.
  { split; [reflexivity|]. split.
    - apply (bool_decide_unpack _). vm_compute. exact I.
    - repeat constructor; lia. }
  split; [lia|]. split; [exact Hs|].
  apply (accuracy_gpu_spec 34 [24; 33; 2]%nat
           (replicate 34 1%nat) (replicate 34 1%nat));
    [lia|exact Hs|reflexivity|reflexivity].
Defined.

(** The split and both accuracies on a sample of the 34-node graph with
    all-equal predictions and labels: 30 test nodes, 30/34 against 1. *)
Example ex_accuracies :
  Gnn.train_nodes [24; 33; 2]%nat = [0; 2; 24; 33]%nat ∧
  (t ← Gnn.test_nodes 34 (Gnn.train_nodes [24; 33; 2]%nat);
   Gnn.accuracy_cpu (replicate 34 1%nat) (replicate 34 1%nat) t) = Ok (q 15 17) ∧
  (t ← Gnn.test_nodes 34 (Gnn.train_nodes [24; 33; 2]%nat);
   Gnn.accuracy_gpu (replicate 34 1%nat) (replicate 34 1%nat) t) = Ok (q 1 1).
Proof. split; [reflexivity|]. split; compute_done. Qed.

(** ** Shape of the aggregated features *)

(** X19 (shape of [neighbor_repr]). Under the contract the aggregated
    tensor has one row per node and every row has the width of the node
    features. *)
Theorem neighbor_repr_shape (g : DGLGraph) (h w : Tensor) :
  contract g h w = true →
  ∃ t, neighbor_repr g h w = Ok t ∧
       nrows t = num_nodes g ∧ ncols t = ncols h ∧ tensor_ok t = true.
Proof.
  intros Hc. eexists. split; [by apply neighbor_repr_closed|].
  unfold nrows, tensor_ok. simpl.
  split; [by rewrite length_map, length_seq|]. split; [done|].
  apply forallb_forall. intros r Hr.
  apply in_map_iff in Hr as (v & <- & _).
  apply Nat.eqb_eq. by apply mean_row_length.
Qed.

Lemma neighbor_repr_shape_witness :
  contract ex_g ex_h ex_w = true ∧
  ∃ t, neighbor_repr ex_g ex_h ex_w = Ok t ∧
       nrows t = num_nodes ex_g ∧ ncols t = ncols ex_h ∧ tensor_ok t = true.
Proof.
  split; [reflexivity|].
  apply (neighbor_repr_shape ex_g ex_h ex_w). reflexivity.
Defined.

(** ** The aggregation over any arithmetic: closed form *)

Section KernelFacts.
Context (A : Arith).

Lemma g_scatter_add_closed (msg : nat → nat → res (list (scalar A)))
    (f : nat → nat → list (scalar A)) (es : list (nat * nat)) (eid : nat)
    (acc : list (list (scalar A))) :
  (∀ i u v, es !! i = Some (u, v) →
            msg (eid + i)%nat u = Ok (f (eid + i)%nat u) ∧ (v < length acc)%nat) →
  g_scatter_add A msg es eid acc =
    Ok (imap (λ v r, foldl (g_vadd A) r (g_messages_into A f es eid v)) acc).
Proof.
  revert eid acc. induction es as [|[u v] es IH]; intros eid acc H; simpl.
  - f_equal. symmetry. by apply imap_id_lookup.
  - destruct (H 0%nat u v eq_refl) as [Hm Hv]. rewrite Nat.add_0_r in Hm.
    rewrite Hm. simpl.
    destruct (lookup_lt_is_Some_2 acc v Hv) as [r Hr]. rewrite Hr. simpl.
    rewrite IH.
    + f_equal. apply list_eq. intros i. rewrite !list_lookup_imap.
      destruct (decide (v = i)) as [->|Hne].
      * rewrite list_lookup_insert_eq by done. by rewrite Hr.
      * by rewrite list_lookup_insert_ne.
    + intros i u' v' Hi. rewrite length_insert.
      replace (S eid + i)%nat with (eid + S i)%nat by lia. by apply H.
Qed.

Lemma g_messages_into_incoming (c : nat) (x : GTensor A) (es : list (nat * nat))
    (ws : list (list (scalar A))) (eid v : nat) :
  (eid + length es ≤ length ws)%nat →
  g_messages_into A
    (λ i u, g_vmul A c (default [] (grows x !! u)) (default [] (ws !! i))) es eid v
  = map (g_edge_product A c x) (g_incoming A es (drop eid ws) v).
Proof.
  revert eid. induction es as [|[u v'] es IH]; intros eid Hlen; simpl in *.
  - done.
  - destruct (lookup_lt_is_Some_2 ws eid) as [w0 Hw0]; [lia|].
    rewrite (drop_S _ _ _ Hw0), Hw0. unfold g_incoming in *. simpl.
    rewrite IH by lia.
    destruct (decide (v' = v)); simpl; done.
Qed.

Lemma g_u_mul_e_mean_closed (g : DGLGraph) (x y : GTensor A) (c : nat) :
  graph_ok g = true → length (grows x) = num_nodes g →
  length (grows y) = num_edges g →
  broadcast_dim (gcols x) (gcols y) = Some c →
  g_u_mul_e_mean A g x y =
    Ok (mkG c (map (g_mean_row A c x (edges g) (grows y)) (seq 0 (num_nodes g)))).
Proof.
  intros Hg Hx Hy Hc. unfold g_u_mul_e_mean. rewrite Hc. simpl.
  rewrite (g_scatter_add_closed _
    (λ i u, g_vmul A c (default [] (grows x !! u)) (default [] (grows y !! i)))).
  - simpl. do 2 f_equal. apply list_eq. intros v.
    unfold g_div_degrees, g_zeros.
    rewrite lookup_zip_with, list_lookup_imap, list_lookup_fmap.
    destruct (decide (v < num_nodes g)%nat) as [Hv|Hv].
    + rewrite lookup_replicate_2, in_degrees_lookup, lookup_seq_lt by done.
      simpl. f_equal. unfold g_mean_row, in_degree.
      rewrite g_messages_into_incoming by (unfold num_edges in Hy; lia).
      done.
    + rewrite (proj1 (lookup_replicate_None _ _ _)), lookup_seq_ge by lia.
      done.
  - intros i u v Hi. simpl.
    destruct (graph_ok_lookup g i u v Hg Hi) as [Hu Hv].
    unfold g_zeros. rewrite length_replicate. split; [|done].
    destruct (lookup_lt_is_Some_2 (grows x) u) as [xu ->]; [lia|].
    destruct (lookup_lt_is_Some_2 (grows y) i) as [yi ->]; [|done].
    apply lookup_lt_Some in Hi. unfold num_edges in Hy. lia.
Qed.

Lemma g_neighbor_repr_closed (g : DGLGraph) (h w : GTensor A) (c : nat) :
  graph_ok g = true → length (grows h) = num_nodes g →
  length (grows w) = num_edges g →
  broadcast_dim (gcols h) (gcols w) = Some c →
  g_neighbor_repr A g h w =
    Ok (mkG c (map (g_mean_row A c h (edges g) (grows w)) (seq 0 (num_nodes g)))).
Proof.
  intros Hg Hh Hw Hc. unfold g_neighbor_repr.
  rewrite !decide_True by done. by apply g_u_mul_e_mean_closed.
Qed.

Lemma g_incoming_fst_snd (ew : list ((nat * nat) * list (scalar A))) (v : nat) :
  g_incoming A ew.*1 ew.*2 v =
    omap (λ p, if decide (p.1.2 = v) then Some (p.1.1, p.2) else None) ew.
Proof. unfold g_incoming. by rewrite zip_fst_snd. Qed.

Lemma foldl_Permutation {B C} (f : B → C → B) (l l' : list C) (b : B) :
  (∀ a x y, f (f a x) y = f (f a y) x) → l ≡ₚ l' → foldl f b l = foldl f b l'.
Proof.
  intros Hf Hp. revert b.
  induction Hp as [|x l l' _ IH|x y l|l l' l'' _ IH1 _ IH2]; intros b; simpl.
  - done.
  - apply IH.
  - by rewrite Hf.
  - by rewrite IH1.
Qed.

Lemma g_vadd_swap (a m x : list (scalar A)) :
  exact_sums A → g_vadd A (g_vadd A a m) x = g_vadd A (g_vadd A a x) m.
Proof.
  intros [Hcomm Hassoc]. unfold g_vadd. revert m x.
  induction a as [|a0 a IH]; intros [|m0 m] [|x0 x]; simpl; try done.
  rewrite IH. f_equal.
  by rewrite <- !Hassoc, (Hcomm m0 x0).
Qed.

End KernelFacts.

(** Over the exact rationals this is the aggregation of [DGL]. *)
Lemma g_scatter_add_exact (msg : nat → nat → res (list Qc)) (es : list (nat * nat))
    (eid : nat) (acc : list (list Qc)) :
  g_scatter_add exact msg es eid acc = scatter_add msg es eid acc.
Proof.
  revert eid acc. induction es as [|[u v] es IH]; intros eid acc; simpl; [done|].
  destruct (msg eid u) as [err|m]; simpl; [done|].
  destruct (acc !! v) as [r|]; simpl; [|done].
  apply IH.
Qed.

Lemma neighbor_repr_over_exact (g : DGLGraph) (h w : Tensor) :
  g_neighbor_repr exact g (to_exact h) (to_exact w) = to_exact <$> neighbor_repr g h w.
Proof.
  unfold neighbor_repr. rewrite aggregate_builtin.
  unfold g_neighbor_repr, to_exact, nrows. simpl.
  destruct (decide (length (rows h) = num_nodes g)); [|done].
  destruct (decide (length (rows w) = num_edges g)); [|done].
  unfold g_u_mul_e_mean, u_mul_e_mean. simpl.
  destruct (broadcast_dim (ncols h) (ncols w)) as [c|]; simpl; [|done].
  rewrite g_scatter_add_exact.
  destruct (scatter_add _ _ _ _) as [err|z]; done.
Qed.

(** The exact rationals meet the conditions [exact_sums] and
    [exact_scaling], for every [c]. *)
Lemma exact_sums_exact : exact_sums exact.
Proof. split; simpl; intros; ring. Qed.

Lemma exact_scaling_exact (c : Qc) : exact_scaling exact c.
Proof. unfold exact_scaling. simpl. repeat split; intros; unfold Qcdiv; ring. Qed.

(** ** Order of enumeration, in any arithmetic *)




(** ** Scaling the weights, in any arithmetic *)

Section Scaling.
Context (A : Arith) (c : scalar A) (Hc : exact_scaling A c).

Lemma g_vmul_scalar_scaled (n : nat) (a : scalar A) (x : list (scalar A)) :
  g_vmul A n x [a_mul A c a] = g_scale A c (g_vmul A n x [a]).
Proof.
  destruct Hc as (H1 & _). unfold g_vmul, g_scale. simpl.
  generalize (expand n x) as y. clear x.
  induction n as [|n IH]; intros [|b y]; simpl; try done.
  by rewrite IH, H1.
Qed.

Lemma g_scale_vadd (x y : list (scalar A)) :
  g_scale A c (g_vadd A x y) = g_vadd A (g_scale A c x) (g_scale A c y).
Proof.
  destruct Hc as (_ & H2 & _). unfold g_scale, g_vadd. revert y.
  induction x as [|a x IH]; intros [|b y]; simpl; try done.
  by rewrite IH, H2.
Qed.

Lemma g_scale_zeros (n : nat) :
  g_scale A c (replicate n (a_zero A)) = replicate n (a_zero A).
Proof.
  destruct Hc as (_ & _ & H3 & _). unfold g_scale.
  induction n as [|n IH]; simpl; [done|]. by rewrite IH, H3.
Qed.

Lemma g_scale_div (d : scalar A) (x : list (scalar A)) :
  map (λ a, a_div A a d) (g_scale A c x) = g_scale A c (map (λ a, a_div A a d) x).
Proof.
  destruct Hc as (_ & _ & _ & H4). unfold g_scale.
  rewrite !map_map. apply map_ext. intros a. apply H4.
Qed.

Lemma g_foldl_scale (a0 : list (scalar A)) (ms : list (list (scalar A))) :
  foldl (g_vadd A) (g_scale A c a0) (map (g_scale A c) ms)
  = g_scale A c (foldl (g_vadd A) a0 ms).
Proof.
  revert a0. induction ms as [|m ms IH]; intros a0; simpl; [done|].
  by rewrite <- g_scale_vadd, IH.
Qed.

Lemma g_incoming_products_scaled (n : nat) (x : GTensor A)
    (es : list (nat * nat)) (ws ws' : list (list (scalar A))) (v : nat) :
  length ws = length es → length ws' = length es →
  Forall (λ we, length we = 1%nat) ws →
  (∀ i u a, es !! i = Some (u, v) → ws !! i = Some [a] →
            ws' !! i = Some [a_mul A c a]) →
  map (g_edge_product A n x) (g_incoming A es ws' v)
  = map (g_scale A c) (map (g_edge_product A n x) (g_incoming A es ws v)).
Proof.
  unfold g_incoming. revert ws ws'.
  induction es as [|[u v'] es IH]; intros [|w0 ws] [|w0' ws'] Hl Hl' Hs H;
    simpl in *; try done.
  apply Forall_cons in Hs as [Hw0 Hs].
  assert (map (g_edge_product A n x)
            (omap (λ p, if decide (p.1.2 = v) then Some (p.1.1, p.2) else None)
                  (zip es ws'))
          = map (g_scale A c) (map (g_edge_product A n x)
            (omap (λ p, if decide (p.1.2 = v) then Some (p.1.1, p.2) else None)
                  (zip es ws))))
    as IH'.
  { apply IH; [lia|lia|done|].
    intros i u' a Hi Hw. by apply (H (S i) u' a). }
  destruct (decide (v' = v)) as [->|]; simpl; [|exact IH'].
  f_equal; [|exact IH'].
  destruct w0 as [|a [|a' w0]]; simpl in Hw0; try done.
  specialize (H 0%nat u a eq_refl eq_refl). injection H as ->.
  unfold g_edge_product. simpl. apply g_vmul_scalar_scaled.
Qed.

End Scaling.




(** ** [u_mul_e_udf] and the rank of the weights *)

Lemma u_mul_e_udf_ranked_rank2 (t : Tensor) (eb : EdgeBatch) :
  data eb "w" = Ok t →
  u_mul_e_udf_ranked (rank_batch (Rank2 t) eb) = u_mul_e_udf eb.
Proof.
  intros Hw. unfold u_mul_e_udf_ranked, u_mul_e_udf, rank_batch. simpl.
  destruct (src eb "h") as [err|hs]; simpl; [done|].
  rewrite Hw. done.
Qed.

Lemma aggregate_udf_ranked_rank2 (g : DGLGraph) (h t : Tensor) :
  aggregate (UDF (λ eb, u_mul_e_udf_ranked (rank_batch (Rank2 t) eb))) h t g
  = aggregate (UDF u_mul_e_udf) h t g.
Proof.
  rewrite !aggregate_unfold.
  destruct (decide (nrows h = num_nodes g)); [|done].
  destruct (decide (nrows t = num_edges g)); [|done].
  unfold message_passing.
  rewrite u_mul_e_udf_ranked_rank2; [done|].
  unfold edge_batch. simpl. by rewrite lookup_insert_eq.
Qed.




(** ** When [forward] can return *)

(** X5 (necessary conditions for a result). [forward] returns only if
    [h] has one row per node, [w] has one row per edge, the widths of [h]
    and [w] broadcast to some width [c], and the layer was created for
    inputs of width [ncols h + c]. *)
Theorem forward_returns_only_if (self : GraphConvWithEdgeWeight) (g g' : DGLGraph)
    (h w out : Tensor) :
  forward self h w g = Ok (out, g') →
  nrows h = num_nodes g ∧ nrows w = num_edges g ∧
  ∃ c, broadcast_dim (ncols h) (ncols w) = Some c ∧
       (ncols h + c)%nat = in_features (linear self).
Proof.
  intros (z & Hz & Hh & Hw & Hin & _)%forward_returns_inv.
  split; [done|]. split; [done|].
  exists (ncols z). split; [by eapply u_mul_e_mean_ncols|done].
Qed.

Lemma forward_returns_only_if_witness :
  forward ex_conv ex_h ex_w ex_g
    = Ok (mkTensor 1 [[q 2 1]; [q 2 1]; [q 1 1]], ex_g) ∧
  nrows ex_h = num_nodes ex_g ∧ nrows ex_w = num_edges ex_g ∧
  ∃ c, broadcast_dim (ncols ex_h) (ncols ex_w) = Some c ∧
       (ncols ex_h + c)%nat = in_features (linear ex_conv).
Proof.
  split; [reflexivity|].
  apply (forward_returns_only_if ex_conv ex_g ex_g ex_h ex_w
           (mkTensor 1 [[q 2 1]; [q 2 1]; [q 1 1]])).
  reflexivity.
Defined.
